(** * A reverse proxy for the generative-language API, as Netlify edge functions

    The repository holds one edge function in four variants:

    - [Direct]   ([netlify/functions/proxy.ts]): allow-list header filter,
      one upstream call, no timeout and no retry;
    - [Retry]    : the same with a timeout-bounded call and a retry loop;
    - [Landing]  : [Retry] plus a static landing page served at ["/"];
    - [DenyList] : deny-list header filter, synthetic browser headers,
      timeout-bounded call and retry loop.

    The functions of each variant are embedded below under their own
    names.  What the runtime provides ([Headers], [URL], [Response],
    [fetch], timers, [JSON.stringify]) is modelled after the WHATWG Fetch
    and URL standards and ECMAScript, as far as the handlers use it. *)

From Stdlib Require Import ZArith NArith Ascii Bool Lia DecimalString.
From Stdlib Require String List.
From stdpp Require Import base tactics option list strings gmap.

Local Open Scope Z_scope.

(** ** Byte strings *)

Module Bytes.

(** The double quote, written by its code. *)
Definition dquote : ascii := ascii_of_N 34.
Definition backslash : ascii := ascii_of_N 92.

Definition chr (c : ascii) : string := String c EmptyString.

Definition is_upper (c : ascii) : bool :=
  let n := N_of_ascii c in (65 <=? n)%N && (n <=? 90)%N.

(** ASCII upper-case letters are moved to lower case, every other byte
    is kept ("byte-lowercase" of the Fetch standard). *)
Definition lower_byte (c : ascii) : ascii :=
  if is_upper c then ascii_of_N (N_of_ascii c + 32) else c.

Fixpoint byteLowerCase (s : string) : string :=
  match s with
  | EmptyString => EmptyString
  | String c t => String (lower_byte c) (byteLowerCase t)
  end.

(** HTTP whitespace bytes: LF, CR, TAB and SPACE. *)
Definition is_http_whitespace (c : ascii) : bool :=
  let n := N_of_ascii c in
  (n =? 10)%N || (n =? 13)%N || (n =? 9)%N || (n =? 32)%N.

Fixpoint strip_leading (s : string) : string :=
  match s with
  | EmptyString => EmptyString
  | String c t => if is_http_whitespace c then strip_leading t else s
  end.

Fixpoint strip_trailing (s : string) : string :=
  match s with
  | EmptyString => EmptyString
  | String c t =>
      match strip_trailing t with
      | EmptyString => if is_http_whitespace c then EmptyString else chr c
      | t' => String c t'
      end
  end.

Fixpoint last_byte (s : string) : option ascii :=
  match s with
  | EmptyString => None
  | String c EmptyString => Some c
  | String _ t => last_byte t
  end.

(** No HTTP whitespace at either end. *)
Definition trimmed (s : string) : bool :=
  match s with
  | EmptyString => true
  | String c _ =>
      negb (is_http_whitespace c)
      && match last_byte s with
         | Some d => negb (is_http_whitespace d)
         | None => true
         end
  end.

Definition hex_digit (upper : bool) (n : N) : ascii :=
  if (n <? 10)%N then ascii_of_N (48 + n)
  else ascii_of_N ((if upper then 55 else 87) + n).

Definition hex_byte (upper : bool) (c : ascii) : string :=
  let n := N_of_ascii c in
  String (hex_digit upper (n / 16)) (chr (hex_digit upper (n mod 16))).

Definition is_alnum (c : ascii) : bool :=
  let n := N_of_ascii c in
  ((48 <=? n) && (n <=? 57) || (65 <=? n) && (n <=? 90)
   || (97 <=? n) && (n <=? 122))%N.

Fixpoint flat_map_bytes (f : ascii -> string) (s : string) : string :=
  match s with
  | EmptyString => EmptyString
  | String c t => f c +:+ flat_map_bytes f t
  end.

Fixpoint skip_slashes (s : string) : string :=
  match s with
  | String "/"%char t => skip_slashes t
  | _ => s
  end.

(** [until_slash s] is the part of [s] before its first slash together
    with the rest, which is empty or starts with that slash. *)
Fixpoint until_slash (s : string) : string * string :=
  match s with
  | EmptyString => (EmptyString, EmptyString)
  | String "/"%char _ => (EmptyString, s)
  | String c t => let (a, r) := until_slash t in (String c a, r)
  end.

End Bytes.
Import Bytes.

(** ** Header collections ([Headers] of the Fetch standard) *)

Module Headers.

(** A header list: names are kept as they were given, one entry for
    each header line. *)
Definition t := list (string * string).

Definition empty : t := [].

Definition same_name (name : string) (h : string * string) : bool :=
  String.eqb (byteLowerCase (fst h)) (byteLowerCase name).

(** The values of every entry whose name matches byte-case-insensitively,
    in list order. *)
Definition values (l : t) (name : string) : list string :=
  map snd (List.filter (same_name name) l).

(** [headers.get(name)]: the values joined by comma and space, [None]
    (JavaScript [null]) when there is none. *)
Definition get (l : t) (name : string) : option string :=
  match values l name with
  | [] => None
  | vs => Some (String.concat ", " vs)
  end.

Definition has (l : t) (name : string) : bool :=
  existsb (same_name name) l.

(** "Normalize" of the Fetch standard: leading and trailing HTTP
    whitespace is removed. *)
Definition normalize (value : string) : string :=
  strip_trailing (strip_leading value).

(** The first entry of that name takes the value, later ones go. *)
Fixpoint replace (name value : string) (added : bool) (l : t) : t :=
  match l with
  | [] => []
  | h :: rest =>
      if same_name name h then
        if added then replace name value true rest
        else (fst h, value) :: replace name value true rest
      else h :: replace name value added rest
  end.

(** [headers.set(name, value)]: the value is normalized; an existing
    entry is overwritten in place, otherwise the header is appended. *)
Definition set (l : t) (name value : string) : t :=
  let value := normalize value in
  if has l name then replace name value false l
  else l ++ [(name, value)].

Fixpoint insert_sorted (n : string) (l : list string) : list string :=
  match l with
  | [] => [n]
  | m :: rest =>
      match String.compare n m with
      | Lt => n :: l
      | Eq => l
      | Gt => m :: insert_sorted n rest
      end
  end.

(** The lower-cased names, each once, in ascending order. *)
Definition sorted_lowercase_names (l : t) : list string :=
  foldr insert_sorted [] (map (fun h => byteLowerCase (fst h)) l).

(** "Sort and combine": what iterating a [Headers] object yields.  Every
    name gives one entry holding its combined value, except
    [set-cookie], whose values are yielded one by one. *)
Definition entries (l : t) : list (string * string) :=
  flat_map
    (fun name =>
       if String.eqb name "set-cookie"
       then map (pair name) (values l name)
       else match get l name with
            | Some v => [(name, v)]
            | None => []
            end)
    (sorted_lowercase_names l).

(** [headers.keys()] *)
Definition keys (l : t) : list string := map fst (entries l).

End Headers.

(** ** Allow-list header filter (proxy.ts, lines 3 to 14) *)

(** An allow-list entry is a string or a regular expression; a regular
    expression is taken by its [test] method. *)
Inductive KeyPattern :=
| KString (s : string)
| KRegExp (test : string -> bool).

Definition key_matches (key : string) (k : KeyPattern) : bool :=
  match k with
  | KString s => String.eqb s key
  | KRegExp test => test key
  end.

Definition pickHeaders (headers : Headers.t) (keys : list KeyPattern)
  : Headers.t :=
  foldl
    (fun picked key =>
       if existsb (key_matches key) keys then
         match Headers.get headers key with
         | Some value => Headers.set picked key value
         | None => picked
         end
       else picked)
    Headers.empty (Headers.keys headers).

(** ** URLs ([URL] and [URLSearchParams] of the URL standard) *)

Module URL.

(** A parsed http(s) URL.  [pathname] begins with a slash and holds
    neither a question mark nor a number sign; [searchParams] is the
    list of decoded name and value pairs of the query, in order. *)
Record t := mk {
  protocol : string;
  host : string;
  pathname : string;
  searchParams : list (string * string)
}.

(** [searchParams.delete(name)]: every pair of that name goes. *)
Definition searchParams_delete (name : string)
  (params : list (string * string)) : list (string * string) :=
  List.filter (fun p => negb (String.eqb (fst p) name)) params.

(** [url.searchParams.append(key, value)] *)
Definition append (url : t) (key value : string) : t :=
  mk (protocol url) (host url) (pathname url)
     (searchParams url ++ [(key, value)]).

(** [new URL(input, base)] for an [input] that is the pathname of a
    parsed http(s) URL.  The relative-URL states of the parser decide
    on the first bytes of the input:
    - one slash: the input is an absolute path on the base's host;
    - two slashes or more: the slashes are skipped and an authority is
      read up to the next slash; it replaces the base's host, and the
      rest is the path.  A missing host is a failure, and so is a host
      that [parse_authority] (host parsing of the standard, with
      credentials and port) refuses.
    [None] stands for the [TypeError] the constructor throws.  Inputs
    that do not begin with a slash are no pathnames. *)
Definition parse (parse_authority : string -> option string)
  (input : string) (base : t) : option t :=
  match input with
  | String "/"%char (String "/"%char rest) =>
      let (authority, path) := until_slash (skip_slashes rest) in
      match authority with
      | EmptyString => None
      | _ =>
          match parse_authority authority with
          | Some h =>
              Some (mk (protocol base) h
                       (match path with EmptyString => "/" | _ => path end)
                       [])
          | None => None
          end
      end
  | String "/"%char _ => Some (mk (protocol base) (host base) input [])
  | _ => None
  end.

(** The application/x-www-form-urlencoded byte serializer: letters,
    digits and [*-._] stay, a space becomes a plus sign, every other
    byte is percent-encoded with upper-case digits. *)
Definition urlencode_byte (c : ascii) : string :=
  let n := N_of_ascii c in
  if is_alnum c || (n =? 42)%N || (n =? 45)%N || (n =? 46)%N || (n =? 95)%N
  then chr c
  else if (n =? 32)%N then "+"
  else String "%"%char (hex_byte true c).

Definition urlencode (s : string) : string :=
  flat_map_bytes urlencode_byte s.

Definition serialize_params (params : list (string * string)) : string :=
  String.concat "&"
    (map (fun p => urlencode (fst p) +:+ "=" +:+ urlencode (snd p)) params).

(** [url.href] (the query is absent when no parameter was appended). *)
Definition href (url : t) : string :=
  protocol url +:+ "//" +:+ host url +:+ pathname url +:+
  match searchParams url with
  | [] => ""
  | params => "?" +:+ serialize_params params
  end.

End URL.

(** ** JavaScript values the handlers touch *)

(** A thrown or rejected value: an instance of [Error] (with its [name]
    and [message]), [null], or anything else. *)
Inductive JSValue :=
| JSError (name message : string)
| JSNull
| JSOther (description : string).

Definition instanceof_Error (v : JSValue) : bool :=
  match v with
  | JSError _ _ => true
  | _ => false
  end.

(** A body: none, a string, or a stream known by its identity. *)
Inductive Body :=
| BodyNull
| BodyText (text : string)
| BodyStream (id : nat).

Module JSON.

Definition escape_byte (c : ascii) : string :=
  let n := N_of_ascii c in
  if (n =? 34)%N then String backslash (chr dquote)
  else if (n =? 92)%N then String backslash (chr backslash)
  else if (n =? 8)%N then String backslash "b"
  else if (n =? 12)%N then String backslash "f"
  else if (n =? 10)%N then String backslash "n"
  else if (n =? 13)%N then String backslash "r"
  else if (n =? 9)%N then String backslash "t"
  else if (n <? 32)%N then String backslash ("u00" +:+ hex_byte false c)
  else chr c.

(** [QuoteJSONString] of ECMAScript, on well-formed text *)
Definition quote (s : string) : string :=
  String dquote (flat_map_bytes escape_byte s +:+ chr dquote).

(** [JSON.stringify] of an object whose properties are strings, in
    property order *)
Definition stringify (fields : list (string * string)) : string :=
  "{" +:+
  String.concat ","
    (map (fun f => quote (fst f) +:+ ":" +:+ quote (snd f)) fields)
  +:+ "}".

End JSON.

(** ** Responses *)

(** The response a [fetch] resolves with: its headers are a [Headers]
    object. *)
Record FetchResponse := {
  fetched_status : Z;
  fetched_headers : Headers.t;
  fetched_body : Body
}.

(** A response the handler creates, with the header dictionary it was
    created from. *)
Record Response := {
  status : Z;
  headers : gmap string string;
  body : Body
}.

(** [Object.fromEntries(iterable)]: later entries overwrite earlier ones
    of the same key. *)
Definition Object_fromEntries (entries : list (string * string))
  : gmap string string :=
  foldl (fun o e => <[fst e := snd e]> o) ∅ entries.

(** [{...a, ...b}]: the properties of [b] win. *)
Definition spread (a b : gmap string string) : gmap string string := b ∪ a.

Definition null_body_status (s : Z) : bool :=
  (s =? 101) || (s =? 103) || (s =? 204) || (s =? 205) || (s =? 304).

(** What the runtime supplies and the repository does not decide: host
    parsing, the values its own failures throw, and how the upstream
    answers each call. *)
Inductive Settled :=
| Resolved (r : FetchResponse)
| Rejected (v : JSValue).

Record FetchOutcome := {
  latency : Z;          (* milliseconds until the call settles *)
  settled : Settled
}.

Record Runtime := {
  parse_authority : string -> option string;
  invalid_url : JSValue;              (* thrown by [new URL] *)
  status_out_of_range : Z -> JSValue; (* [RangeError] of [new Response] *)
  null_body_with_body : JSValue;      (* [TypeError] of [new Response] *)
  abort_reason : JSValue;             (* rejection of an aborted fetch *)
  network : nat -> FetchOutcome       (* outcome of the k-th fetch *)
}.

(** ** The world a handler runs in *)

(** What [fetch] is called with. *)
Record RequestInit := {
  init_method : string;
  init_headers : Headers.t;
  init_body : Body;
  init_duplex_half : bool;
  init_signal : option nat     (* the abort controller observed, if any *)
}.

Record Timer := {
  timer_id : nat;
  deadline : Z;                (* on the world's clock *)
  aborts : nat                 (* the controller its callback aborts *)
}.

Inductive Event :=
| EFetch (url : URL.t) (init : RequestInit)
| ESetTimeout (id : nat) (ms : Z)
| EClearTimeout (id : nat)
| ETimeoutFired (id : nat)
| ESleep (ms : Z)
| EConsoleError (label : string) (v : JSValue).

Record World := {
  now : Z;                     (* clock, in milliseconds *)
  fetches : nat;               (* calls of [fetch] so far *)
  next_id : nat;               (* next timer or controller identity *)
  timers : list Timer;         (* timers set and neither fired nor cleared *)
  trace : list Event           (* what happened, oldest first *)
}.

Definition log (e : Event) (w : World) : World :=
  {| now := now w; fetches := fetches w; next_id := next_id w;
     timers := timers w; trace := trace w ++ [e] |}.

(** An asynchronous function either returns or throws, and leaves a
    world behind in both cases. *)
Inductive Completion (A : Type) :=
| Return (a : A)
| Throw (v : JSValue).
Arguments Return {A} a.
Arguments Throw {A} v.

Definition Async (A : Type) : Type := World -> Completion A * World.

Definition ret {A} (a : A) : Async A := fun w => (Return a, w).

Definition throw {A} (v : JSValue) : Async A := fun w => (Throw v, w).

Definition bind {A B} (m : Async A) (k : A -> Async B) : Async B :=
  fun w =>
    match m w with
    | (Return a, w') => k a w'
    | (Throw v, w') => (Throw v, w')
    end.

(** [try { m } catch (error) { handler error }] *)
Definition try_catch {A} (m : Async A) (handler : JSValue -> Async A)
  : Async A :=
  fun w =>
    match m w with
    | (Return a, w') => (Return a, w')
    | (Throw v, w') => handler v w'
    end.

Declare Scope async_scope.
Delimit Scope async_scope with async.
Notation "x <- m ;; k" := (bind m (fun x => k))
  (at level 100, m at next level, right associativity) : async_scope.
Notation "m ;;; k" := (bind m (fun _ => k))
  (at level 100, right associativity) : async_scope.
Local Open Scope async_scope.

Definition console_error (label : string) (v : JSValue) : Async unit :=
  fun w => (Return tt, log (EConsoleError label v) w).

(** [new AbortController()] *)
Definition new_AbortController : Async nat :=
  fun w =>
    (Return (next_id w),
     {| now := now w; fetches := fetches w; next_id := S (next_id w);
        timers := timers w; trace := trace w |}).

(** [setTimeout(() => controller.abort(), ms)] *)
Definition setTimeout_abort (controller : nat) (ms : Z) : Async nat :=
  fun w =>
    let id := next_id w in
    (Return id,
     {| now := now w; fetches := fetches w; next_id := S id;
        timers := timers w ++
                  [{| timer_id := id; deadline := now w + ms;
                      aborts := controller |}];
        trace := trace w ++ [ESetTimeout id ms] |}).

(** [clearTimeout(id)]: nothing happens when the timer is gone. *)
Definition clearTimeout (id : nat) : Async unit :=
  fun w =>
    (Return tt,
     {| now := now w; fetches := fetches w; next_id := next_id w;
        timers := List.filter (fun t => negb (timer_id t =? id)%nat)
                    (timers w);
        trace := trace w ++ [EClearTimeout id] |}).

(** [await sleep(ms)]: a timer is set and the caller resumes when it has
    fired. *)
Definition sleep (ms : Z) : Async unit :=
  fun w =>
    (Return tt,
     {| now := now w + ms; fetches := fetches w; next_id := S (next_id w);
        timers := timers w; trace := trace w ++ [ESleep ms] |}).

Section Runtime.

Variable rt : Runtime.

Definition settle (o : FetchOutcome) : Completion FetchResponse :=
  match settled o with
  | Resolved r => Return r
  | Rejected v => Throw v
  end.

(** [await fetch(url, init)].  The call settles as the network decides
    after its latency, unless a timer that aborts the observed
    controller is due by then: that timer fires first and the call
    rejects with the abort reason. *)
Definition fetch (url : URL.t) (init : RequestInit)
  : Async FetchResponse :=
  fun w =>
    let o := network rt (fetches w) in
    let started :=
      {| now := now w; fetches := S (fetches w); next_id := next_id w;
         timers := timers w; trace := trace w ++ [EFetch url init] |} in
    let due (t : Timer) : bool :=
      match init_signal init with
      | Some c => (aborts t =? c)%nat && (deadline t <=? now w + latency o)
      | None => false
      end in
    match List.find due (timers w) with
    | Some t =>
        (Throw (abort_reason rt),
         {| now := deadline t; fetches := fetches started;
            next_id := next_id started;
            timers := List.filter
                        (fun t' => negb (timer_id t' =? timer_id t)%nat)
                        (timers w);
            trace := trace started ++ [ETimeoutFired (timer_id t)] |})
    | None =>
        (settle o,
         {| now := now w + latency o; fetches := fetches started;
            next_id := next_id started; timers := timers started;
            trace := trace started |})
    end.

(** [new URL(input, base)] as a step that may throw *)
Definition new_URL (input : string) (base : URL.t) : Async URL.t :=
  match URL.parse (parse_authority rt) input base with
  | Some url => ret url
  | None => throw (invalid_url rt)
  end.

(** [new Response(body, { headers, status })]: the status, 200 when
    absent, must lie in 200..599, and a body needs a status that
    admits one. *)
Definition new_Response (body : Body) (headers : gmap string string)
  (status : option Z) : Async Response :=
  let s := default 200 status in
  if negb ((200 <=? s) && (s <=? 599)) then
    throw (status_out_of_range rt s)
  else
    match body with
    | BodyNull => ret {| status := s; headers := headers; body := body |}
    | _ =>
        if null_body_status s then throw (null_body_with_body rt)
        else ret {| status := s; headers := headers; body := body |}
    end.

End Runtime.

(** ** What the four variants share *)

(** The inbound request.  [req_url] is [new URL(request.url)]: the
    platform hands over an absolute http(s) URL, which parses into its
    parts. *)
Record Request := {
  req_method : string;
  req_url : URL.t;
  req_headers : Headers.t;
  req_body : Body
}.

Definition CORS_HEADERS : gmap string string :=
  <["access-control-allow-headers" := "*"]>
    (<["access-control-allow-methods" := "*"]>
       (<["access-control-allow-origin" := "*"]> ∅)).

(** The base every upstream URL is resolved against,
    [https://generativelanguage.googleapis.com]. *)
Definition UPSTREAM : URL.t :=
  URL.mk "https:" "generativelanguage.googleapis.com" "/" [].

(** The allow-list both call sites of the allow-list variants pass. *)
Definition ALLOWED_HEADERS : list KeyPattern :=
  [KString "content-type"; KString "authorization";
   KString "x-goog-api-client"; KString "x-goog-api-key";
   KString "accept-encoding"].

(** [searchParams.forEach((value, key) => url.searchParams.append(key, value))] *)
Definition copy_params (params : list (string * string)) (url : URL.t)
  : URL.t :=
  foldl (fun u p => URL.append u (fst p) (snd p)) url params.

(** [error instanceof Error ? error.message : "Unknown error"] *)
Definition error_message (error : JSValue) : string :=
  match error with
  | JSError _ message => message
  | _ => "Unknown error"
  end.

Section Shared.

Variable rt : Runtime.

(** The success branch: the upstream response is wrapped again, its
    headers laid over the cross-origin ones. *)
Definition relay (response : FetchResponse) : Async Response :=
  let responseHeaders :=
    spread CORS_HEADERS
      (Object_fromEntries (Headers.entries (fetched_headers response))) in
  new_Response rt (fetched_body response) responseHeaders
    (Some (fetched_status response)).

(** The catch branch *)
Definition proxy_error (error : JSValue) : Async Response :=
  console_error "Proxy error:" error ;;;
  new_Response rt
    (BodyText
       (JSON.stringify
          [("error", "Proxy request failed");
           ("message", error_message error)]))
    (spread CORS_HEADERS {["content-type" := "application/json"]})
    (Some 502).

(** The preflight answer, [new Response(null, { headers: CORS_HEADERS })] *)
Definition preflight : Async Response :=
  new_Response rt BodyNull CORS_HEADERS None.

(** Lines 29 to 35 of proxy.ts, the same in every variant: the target
    is the inbound path resolved against the upstream, with the
    inbound parameters except [_path]. *)
Definition upstream_url (request : Request) : Async URL.t :=
  let pathname := URL.pathname (req_url request) in
  let searchParams := URL.searchParams (req_url request) in
  url <- new_URL rt pathname UPSTREAM ;;
  let searchParams := URL.searchParams_delete "_path" searchParams in
  ret (copy_params searchParams url).

End Shared.

(** ** netlify/functions/proxy.ts *)

Module Direct.
Section Handler.

Variable rt : Runtime.

Definition default (request : Request) : Async Response :=
  if String.eqb (req_method request) "OPTIONS" then preflight rt
  else
    url <- upstream_url rt request ;;
    let headers := pickHeaders (req_headers request) ALLOWED_HEADERS in
    try_catch
      (response <- fetch rt url
         {| init_method := req_method request;
            init_headers := headers;
            init_body := req_body request;
            init_duplex_half := true;
            init_signal := None |} ;;
       relay rt response)
      (proxy_error rt).

End Handler.
End Direct.

(** ** The variant with timeout and retry *)

Module Retry.

Definition REQUEST_TIMEOUT : Z := 20000.
Definition MAX_RETRIES : Z := 2.
Definition RETRY_DELAY : Z := 1000.

(** [{ ...options, signal: controller.signal }] *)
Definition with_signal (options : RequestInit) (controller : nat)
  : RequestInit :=
  {| init_method := init_method options;
     init_headers := init_headers options;
     init_body := init_body options;
     init_duplex_half := init_duplex_half options;
     init_signal := Some controller |}.

Section Handler.

Variable rt : Runtime.

Definition fetchWithTimeout (url : URL.t) (options : RequestInit)
  (timeout : Z) : Async FetchResponse :=
  controller <- new_AbortController ;;
  timeoutId <- setTimeout_abort controller timeout ;;
  try_catch
    (response <- fetch rt url (with_signal options controller) ;;
     clearTimeout timeoutId ;;;
     ret response)
    (fun error => clearTimeout timeoutId ;;; throw error).

(** The body of the [for] loop, for the attempts still to run. *)
Fixpoint attempts (url : URL.t) (options : RequestInit) (retries : Z)
  (todo : list Z) (lastError : JSValue) : Async FetchResponse :=
  match todo with
  | [] => throw lastError
  | attempt :: later =>
      try_catch (fetchWithTimeout url options REQUEST_TIMEOUT)
        (fun error =>
           (if attempt <? retries
            then sleep (RETRY_DELAY * (attempt + 1))
            else ret tt) ;;;
           attempts url options retries later error)
  end.

(** [for (let attempt = 0; attempt <= retries; attempt++)] runs over
    0, 1, ..., [retries]. *)
Definition fetchWithRetry (url : URL.t) (options : RequestInit)
  (retries : Z) : Async FetchResponse :=
  attempts url options retries (seqZ 0 (retries + 1)) JSNull.

Definition default (request : Request) : Async Response :=
  if String.eqb (req_method request) "OPTIONS" then preflight rt
  else
    url <- upstream_url rt request ;;
    let headers := pickHeaders (req_headers request) ALLOWED_HEADERS in
    try_catch
      (response <- fetchWithRetry url
         {| init_method := req_method request;
            init_headers := headers;
            init_body := req_body request;
            init_duplex_half := false;
            init_signal := None |} MAX_RETRIES ;;
       relay rt response)
      (proxy_error rt).

End Handler.
End Retry.

(** ** The variant with the landing page *)

Module Landing.

Definition q : string := chr dquote.

(** The template literal [blank_html] of the source. *)
Definition blank_html : string :=
"
<!DOCTYPE html>
<html>
<head>
  <meta charset=" +:+ q +:+ "UTF-8" +:+ q +:+ ">
  <title>Google PaLM API proxy on Netlify Edge</title>
</head>
<body>
  <h1 id=" +:+ q +:+ "google-palm-api-proxy-on-netlify-edge" +:+ q +:+ ">Google PaLM API proxy on Netlify Edge</h1>
  <p>Tips: This project uses a reverse proxy to solve problems such as location restrictions in Google APIs. </p>
  <p>If you have any of the following requirements, you may need the support of this project.</p>
  <ol>
  <li>When you see the error message &quot;User location is not supported for the API use&quot; when calling the Google PaLM API</li>
  <li>You want to customize the Google PaLM API</li>
  </ol>
  <p>For technical discussions, please visit <a href=" +:+ q +:+ "https://simonmy.com/posts/google-palm-api-proxy-on-netlify-edge.html" +:+ q +:+ ">https://simonmy.com/posts/google-palm-api-proxy-on-netlify-edge.html</a></p>
</body>
</html>
    ".

Section Handler.

Variable rt : Runtime.

(** [fetchWithTimeout] and [fetchWithRetry] of this variant are those
    of [Retry], letter for letter. *)
Definition default (request : Request) : Async Response :=
  if String.eqb (req_method request) "OPTIONS" then preflight rt
  else if String.eqb (URL.pathname (req_url request)) "/" then
    new_Response rt (BodyText blank_html)
      (spread CORS_HEADERS {["content-type" := "text/html"]}) None
  else
    url <- upstream_url rt request ;;
    let headers := pickHeaders (req_headers request) ALLOWED_HEADERS in
    try_catch
      (response <- Retry.fetchWithRetry rt url
         {| init_method := req_method request;
            init_headers := headers;
            init_body := req_body request;
            init_duplex_half := false;
            init_signal := None |} Retry.MAX_RETRIES ;;
       relay rt response)
      (proxy_error rt).

End Handler.
End Landing.

(** ** The deny-list variant *)

Module DenyList.

Definition REQUEST_TIMEOUT : Z := 20000.
Definition MAX_RETRIES : Z := 2.
Definition RETRY_DELAY : Z := 1000.

Definition BLOCKED_HEADERS : list string :=
  ["cookie"; "set-cookie"; "host"; "referer"; "user-agent";
   "x-forwarded-for"; "x-real-ip"; "x-forwarded-host";
   "x-forwarded-proto"].

(** [key.toLowerCase()], on header names, which are ASCII *)
Definition toLowerCase (key : string) : string := byteLowerCase key.

(** [blockedKeys.includes(lowerKey)] *)
Definition includes (keys : list string) (key : string) : bool :=
  existsb (String.eqb key) keys.

Definition pickHeaders (headers : Headers.t) (blockedKeys : list string)
  : Headers.t :=
  foldl
    (fun picked key =>
       let lowerKey := toLowerCase key in
       if negb (includes blockedKeys lowerKey) then
         match Headers.get headers key with
         | Some value => Headers.set picked key value
         | None => picked
         end
       else picked)
    Headers.empty (Headers.keys headers).

Definition USER_AGENT : string :=
  "Mozilla/5.0 (Windows NT 10.0; Win64; x64) AppleWebKit/537.36 (KHTML, like Gecko) Chrome/120.0.0.0 Safari/537.36".

(** The six [headers.set] calls, in order; the collection is updated
    in place and is the one the handler passes on. *)
Definition addProxyHeaders (headers : Headers.t) : Headers.t :=
  let headers := Headers.set headers "user-agent" USER_AGENT in
  let headers :=
    Headers.set headers "accept" "application/json, text/plain, */*" in
  let headers := Headers.set headers "accept-language" "en-US,en;q=0.9" in
  let headers := Headers.set headers "accept-encoding" "gzip, deflate, br" in
  let headers := Headers.set headers "cache-control" "no-cache" in
  Headers.set headers "pragma" "no-cache".

(** [{ ...options, signal: controller.signal, duplex: "half" }] *)
Definition with_signal_half (options : RequestInit) (controller : nat)
  : RequestInit :=
  {| init_method := init_method options;
     init_headers := init_headers options;
     init_body := init_body options;
     init_duplex_half := true;
     init_signal := Some controller |}.

(** The template literal of the attempt log *)
Definition attempt_label (attempt : Z) : string :=
  "Attempt " +:+ NilZero.string_of_int (Z.to_int (attempt + 1))
  +:+ " failed:".

Section Handler.

Variable rt : Runtime.

Definition fetchWithTimeout (url : URL.t) (options : RequestInit)
  (timeout : Z) : Async FetchResponse :=
  controller <- new_AbortController ;;
  timeoutId <- setTimeout_abort controller timeout ;;
  try_catch
    (response <- fetch rt url (with_signal_half options controller) ;;
     clearTimeout timeoutId ;;;
     ret response)
    (fun error => clearTimeout timeoutId ;;; throw error).

Fixpoint attempts (url : URL.t) (options : RequestInit) (retries : Z)
  (todo : list Z) (lastError : JSValue) : Async FetchResponse :=
  match todo with
  | [] => throw lastError
  | attempt :: later =>
      try_catch (fetchWithTimeout url options REQUEST_TIMEOUT)
        (fun error =>
           console_error (attempt_label attempt) error ;;;
           (if attempt <? retries
            then sleep (RETRY_DELAY * (attempt + 1))
            else ret tt) ;;;
           attempts url options retries later error)
  end.

Definition fetchWithRetry (url : URL.t) (options : RequestInit)
  (retries : Z) : Async FetchResponse :=
  attempts url options retries (seqZ 0 (retries + 1)) JSNull.

Definition default (request : Request) : Async Response :=
  if String.eqb (req_method request) "OPTIONS" then preflight rt
  else
    url <- upstream_url rt request ;;
    let headers := pickHeaders (req_headers request) BLOCKED_HEADERS in
    let headers := addProxyHeaders headers in
    try_catch
      (response <- fetchWithRetry url
         {| init_method := req_method request;
            init_headers := headers;
            init_body := req_body request;
            init_duplex_half := false;
            init_signal := None |} MAX_RETRIES ;;
       relay rt response)
      (proxy_error rt).

End Handler.
End DenyList.

(** ** Notions the properties are stated with *)

(** Both header filters run the same loop and differ in the test on the
    key. *)
Definition pick_by (keep : string → bool) (headers : Headers.t)
  : Headers.t :=
  foldl
    (fun picked key =>
       if keep key then
         match Headers.get headers key with
         | Some value => Headers.set picked key value
         | None => picked
         end
       else picked)
    Headers.empty (Headers.keys headers).

(** Timers and controllers in use are older than the next identity. *)
Definition fresh_ids (w : World) : Prop :=
  ∀ t, In t (timers w) →
       (timer_id t < next_id w)%nat ∧ (aborts t < next_id w)%nat.

(** The upstream calls and backoff waits of a trace, in order. *)
Inductive Step :=
| Attempt
| Delay (ms : Z).

Definition step_of (e : Event) : list Step :=
  match e with
  | EFetch _ _ => [Attempt]
  | ESleep ms => [Delay ms]
  | _ => []
  end.

Definition steps (events : list Event) : list Step :=
  flat_map step_of events.

(** The errors logged under the label of the catch branch. *)
Definition proxy_error_of (e : Event) : list JSValue :=
  match e with
  | EConsoleError label v =>
      if String.eqb label "Proxy error:" then [v] else []
  | _ => []
  end.

Definition proxy_errors (events : list Event) : list JSValue :=
  flat_map proxy_error_of events.

(** How the k-th upstream call ends under a timeout: aborted when the
    timeout is reached first, else as the network settles it. *)
Definition timed (rt : Runtime) (timeout : Z) (k : nat)
  : Completion FetchResponse :=
  if timeout <=? latency (network rt k) then Throw (abort_reason rt)
  else settle (network rt k).

(** The world after one timeout-bounded call. *)
Definition after_call (rt : Runtime) (timeout : Z) (url : URL.t)
  (init : RequestInit) (w : World) : World :=
  let o := network rt (fetches w) in
  let id := S (next_id w) in
  {| now := now w + (if timeout <=? latency o then timeout else latency o);
     fetches := S (fetches w);
     next_id := S id;
     timers := timers w;
     trace := trace w ++
              [ESetTimeout id timeout; EFetch url init] ++
              (if timeout <=? latency o then [ETimeoutFired id] else []) ++
              [EClearTimeout id] |}.

(** The retry contract in the words of the specification: the first
    response received is the result, and when every attempt fails the
    last error is.  [k] is the index of the next upstream call. *)
Fixpoint first_success (rt : Runtime) (k : nat) (todo : list Z)
  (lastError : JSValue) : Completion FetchResponse :=
  match todo with
  | [] => Throw lastError
  | _ :: later =>
      match timed rt 20000 k with
      | Return r => Return r
      | Throw e => first_success rt (S k) later e
      end
  end.

(** ... and its schedule: an attempt, and after a failed one that is not
    the last the wait of [1000 * (attempt + 1)] milliseconds. *)
Fixpoint schedule (rt : Runtime) (retries : Z) (k : nat) (todo : list Z)
  : list Step :=
  match todo with
  | [] => []
  | attempt :: later =>
      Attempt ::
      match timed rt 20000 k with
      | Return _ => []
      | Throw _ =>
          (if attempt <? retries then [Delay (1000 * (attempt + 1))] else [])
          ++ schedule rt retries (S k) later
      end
  end.

(** [w'] continues [w] by the events [evs], with no timer left over. *)
Definition continues (w w' : World) (evs : list Event) : Prop :=
  trace w' = trace w ++ evs ∧ timers w' = timers w ∧ fresh_ids w'
  ∧ (fetches w ≤ fetches w')%nat.

(** What both retry loops achieve from a world [w]: the result and the
    schedule of the contract, no proxy error logged, and a response only
    from the last call made. *)
Definition loop_ok (rt : Runtime) (retries : Z) (todo : list Z)
  (lastError : JSValue) (w : World)
  (out : Completion FetchResponse * World) : Prop :=
  ∃ evs,
    fst out = first_success rt (fetches w) todo lastError
    ∧ continues w (snd out) evs
    ∧ steps evs = schedule rt retries (fetches w) todo
    ∧ proxy_errors evs = []
    ∧ (∀ r, fst out = Return r →
            (fetches w < fetches (snd out))%nat
            ∧ settled (network rt (pred (fetches (snd out)))) = Resolved r).

(** The four variants of the handler. *)
Inductive Variant := VDirect | VRetry | VLanding | VDenyList.

Definition handler (rt : Runtime) (v : Variant) : Request → Async Response :=
  match v with
  | VDirect => Direct.default rt
  | VRetry => Retry.default rt
  | VLanding => Landing.default rt
  | VDenyList => DenyList.default rt
  end.

(** The responses a handler can end with. *)
Definition preflight_response : Response :=
  {| status := 200; headers := CORS_HEADERS; body := BodyNull |}.

Definition landing_response : Response :=
  {| status := 200;
     headers := <["content-type" := "text/html"]> CORS_HEADERS;
     body := BodyText Landing.blank_html |}.

Definition relayed (r : FetchResponse) : Response :=
  {| status := fetched_status r;
     headers :=
       Object_fromEntries (Headers.entries (fetched_headers r)) ∪ CORS_HEADERS;
     body := fetched_body r |}.

Definition bad_gateway (e : JSValue) : Response :=
  {| status := 502;
     headers := <["content-type" := "application/json"]> CORS_HEADERS;
     body :=
       BodyText
         (JSON.stringify
            [("error", "Proxy request failed");
             ("message", error_message e)]) |}.

(** The error [new Response] throws for an upstream response, if any. *)
Definition rewrap_error (rt : Runtime) (r : FetchResponse) : option JSValue :=
  let s := fetched_status r in
  if negb ((200 <=? s) && (s <=? 599)) then Some (status_out_of_range rt s)
  else
    match fetched_body r with
    | BodyNull => None
    | _ => if null_body_status s then Some (null_body_with_body rt) else None
    end.

(** The ways a request can end, and what shows that it ended that way:
    no step was taken (preflight, landing page), the last upstream call
    gave the response relayed and no proxy error was logged, or a proxy
    error was logged. *)
Inductive Outcome :=
| Preflight
| LandingPage
| Forwarded (r : FetchResponse)
| BadGateway (e : JSValue).

Definition response_of (o : Outcome) : Response :=
  match o with
  | Preflight => preflight_response
  | LandingPage => landing_response
  | Forwarded r => relayed r
  | BadGateway e => bad_gateway e
  end.

Definition ends_as (rt : Runtime) (request : Request) (w : World)
  (out : Completion Response * World) (o : Outcome) : Prop :=
  fst out = Return (response_of o) ∧
  match o with
  | Preflight => req_method request = "OPTIONS" ∧ snd out = w
  | LandingPage => req_method request ≠ "OPTIONS" ∧ snd out = w
  | Forwarded r =>
      (fetches w < fetches (snd out))%nat
      ∧ settled (network rt (pred (fetches (snd out)))) = Resolved r
      ∧ proxy_errors (trace (snd out)) = proxy_errors (trace w)
  | BadGateway e =>
      proxy_errors (trace (snd out)) = proxy_errors (trace w) ++ [e]
  end.

(** The parts of the forward path, by variant: the target built on a
    parsed base [url], the headers sent, the options of the call, the
    call itself, and how that call ends when its first [fetch] is the
    k-th of the world. *)
Definition target (url : URL.t) (request : Request) : URL.t :=
  copy_params
    (URL.searchParams_delete "_path" (URL.searchParams (req_url request)))
    url.

Definition outbound_headers (v : Variant) (request : Request) : Headers.t :=
  match v with
  | VDenyList =>
      DenyList.addProxyHeaders
        (DenyList.pickHeaders (req_headers request) DenyList.BLOCKED_HEADERS)
  | _ => pickHeaders (req_headers request) ALLOWED_HEADERS
  end.

Definition outbound_init (v : Variant) (request : Request) : RequestInit :=
  {| init_method := req_method request;
     init_headers := outbound_headers v request;
     init_body := req_body request;
     init_duplex_half := match v with VDirect => true | _ => false end;
     init_signal := None |}.

Definition upstream_call (rt : Runtime) (v : Variant) (url : URL.t)
  (init : RequestInit) : Async FetchResponse :=
  match v with
  | VDirect => fetch rt url init
  | VRetry | VLanding => Retry.fetchWithRetry rt url init Retry.MAX_RETRIES
  | VDenyList => DenyList.fetchWithRetry rt url init DenyList.MAX_RETRIES
  end.

Definition upstream_result (rt : Runtime) (v : Variant) (k : nat)
  : Completion FetchResponse :=
  match v with
  | VDirect => settle (network rt k)
  | _ => first_success rt k [0; 1; 2] JSNull
  end.

(** The request is answered with the landing page. *)
Definition serves_landing (v : Variant) (request : Request) : bool :=
  match v with
  | VLanding => String.eqb (URL.pathname (req_url request)) "/"
  | _ => false
  end.

(** A path that begins with one slash and not with two. *)
Definition single_slash (pathname : string) : bool :=
  match pathname with
  | String "/"%char (String "/"%char _) => false
  | String "/"%char _ => true
  | _ => false
  end.

(** The names on the allow-list, and the headers the deny-list variant
    sets on every outbound request. *)
Definition allowed_names : list string :=
  ["content-type"; "authorization"; "x-goog-api-client"; "x-goog-api-key";
   "accept-encoding"].

Definition SYNTHETIC_HEADERS : list (string * string) :=
  [("user-agent", DenyList.USER_AGENT);
   ("accept", "application/json, text/plain, */*");
   ("accept-language", "en-US,en;q=0.9");
   ("accept-encoding", "gzip, deflate, br");
   ("cache-control", "no-cache");
   ("pragma", "no-cache")].

(** "Each kept entry's value is copied unmodified", for one collection. *)
Definition values_unmodified (h : Headers.t) : Prop :=
  ∀ name value,
    Headers.get (pickHeaders h ALLOWED_HEADERS) name = Some value →
    Headers.get h name = Some value.

(** ** Notions for the properties beyond the claims *)

(** The longest the rest of a retry loop can take: for every attempt its
    timeout, and after every attempt but the last its wait. *)
Fixpoint budget (retries : Z) (todo : list Z) : Z :=
  match todo with
  | [] => 0
  | attempt :: later =>
      20000 + (if attempt <? retries then 1000 * (attempt + 1) else 0)
      + budget retries later
  end.

(** An event that, if it is an upstream call, goes to [url] with the
    method, headers and body of [options]. *)
Definition carries (url : URL.t) (options : RequestInit) (e : Event) : Prop :=
  match e with
  | EFetch u i =>
      u = url
      ∧ init_method i = init_method options
      ∧ init_headers i = init_headers options
      ∧ init_body i = init_body options
  | _ => True
  end.

(** What a run [out] of a retry loop from [w] stays within. *)
Definition loop_bounded (url : URL.t) (options : RequestInit) (retries : Z)
  (todo : list Z) (w : World) (out : Completion FetchResponse * World)
  : Prop :=
  ∃ evs,
    trace (snd out) = trace w ++ evs
    ∧ Forall (carries url options) evs
    ∧ (fetches (snd out) ≤ fetches w + length todo)%nat
    ∧ now (snd out) ≤ now w + budget retries todo.

(** The names of a collection as they compare. *)
Definition lower_names (l : Headers.t) : list string :=
  map (fun e => byteLowerCase (fst e)) l.

(** The values the entries of a list give under a key, in order. *)
Definition entry_values (k : string) (entries : list (string * string))
  : list string :=
  map snd (List.filter (fun e => String.eqb (fst e) k) entries).

(** The upstream calls a variant may make for one request. *)
Definition calls_allowed (v : Variant) : nat :=
  match v with
  | VDirect => 1
  | _ => 3
  end.

(** What a run [out] of a handler from [w] stays within, whatever the
    network does. *)
Definition run_bounded (rt : Runtime) (v : Variant) (request : Request)
  (w : World) (out : Completion Response * World) : Prop :=
  ∃ evs,
    trace (snd out) = trace w ++ evs
    ∧ timers (snd out) = timers w
    ∧ (fetches (snd out) ≤ fetches w + calls_allowed v)%nat
    ∧ (v ≠ VDirect → now (snd out) <= now w + 63000)
    ∧ (∀ u i,
          In (EFetch u i) evs →
          fst (upstream_url rt request w) = Return u
          ∧ init_method i = req_method request
          ∧ init_headers i = outbound_headers v request
          ∧ init_body i = req_body request)
    ∧ (∀ e,
          fst out = Throw e →
          e = invalid_url rt ∧ snd out = w
          ∧ URL.parse (parse_authority rt)
              (URL.pathname (req_url request)) UPSTREAM = None).

(** What a trace shows on the error console, and what the deny-list
    variant's loop writes there: one line for each failed attempt. *)
Definition console_of (e : Event) : list (string * JSValue) :=
  match e with
  | EConsoleError label v => [(label, v)]
  | _ => []
  end.

Definition console (events : list Event) : list (string * JSValue) :=
  flat_map console_of events.

Fixpoint attempt_logs (rt : Runtime) (k : nat) (todo : list Z)
  : list (string * JSValue) :=
  match todo with
  | [] => []
  | attempt :: later =>
      match timed rt 20000 k with
      | Return _ => []
      | Throw e =>
          (DenyList.attempt_label attempt, e) :: attempt_logs rt (S k) later
      end
  end.

(** ** Sample inputs *)

(** A runtime for the examples: its host parser takes an authority as it
    is written, which is what the standard's does on the plain lower-case
    host names used below. *)
Definition sample_runtime (net : nat → FetchOutcome) : Runtime :=
  {| parse_authority := Some;
     invalid_url := JSError "TypeError" "Invalid URL";
     status_out_of_range := fun _ => JSError "RangeError" "Invalid status";
     null_body_with_body := JSError "TypeError" "Invalid body";
     abort_reason := JSError "AbortError" "The signal has been aborted";
     network := net |}.

Definition initial_world : World :=
  {| now := 0; fetches := 0; next_id := 0; timers := []; trace := [] |}.

Definition connection_refused (k : nat) : FetchOutcome :=
  {| latency := 40;
     settled := Rejected (JSError "TypeError" "connection refused") |}.

Definition models_response : FetchResponse :=
  {| fetched_status := 200;
     fetched_headers := [("Content-Type", "application/json")];
     fetched_body := BodyStream 1 |}.

Definition answers (r : FetchResponse) (k : nat) : FetchOutcome :=
  {| latency := 120; settled := Resolved r |}.

Definition sample_request (method pathname : string) : Request :=
  {| req_method := method;
     req_url :=
       URL.mk "https:" "proxy.example" pathname
         [("_path", "ignored"); ("key", "abc")];
     req_headers :=
       [("Content-Type", "application/json"); ("Cookie", "session=1");
        ("X-Goog-Api-Key", "abc")];
     req_body := BodyNull |}.

Definition two_cookies : FetchResponse :=
  {| fetched_status := 200;
     fetched_headers := [("Set-Cookie", "a=1"); ("Set-Cookie", "b=2")];
     fetched_body := BodyStream 1 |}.

(** * Properties *)

(** ** Header collections *)

Section HeaderFacts.

Implicit Types (l h : Headers.t) (n k name value : string).

Lemma lower_byte_idempotent c : lower_byte (lower_byte c) = lower_byte c.
Proof. destruct c as [[] [] [] [] [] [] [] []]; reflexivity. Qed.

Lemma byteLowerCase_idempotent s :
  byteLowerCase (byteLowerCase s) = byteLowerCase s.
Proof.
  induction s as [|c s IH]; simpl; [reflexivity|].
  by rewrite lower_byte_idempotent, IH.
Qed.

Lemma same_name_iff n e :
  Headers.same_name n e = true ↔ byteLowerCase (fst e) = byteLowerCase n.
Proof. unfold Headers.same_name. apply String.eqb_eq. Qed.

Lemma same_name_disjoint n n' e :
  byteLowerCase n ≠ byteLowerCase n' →
  Headers.same_name n e = true → Headers.same_name n' e = false.
Proof.
  intros Hne H. apply same_name_iff in H.
  apply not_true_is_false. intros H'. apply same_name_iff in H'. congruence.
Qed.

Lemma has_values l n : Headers.has l n = false ↔ Headers.values l n = [].
Proof.
  unfold Headers.has, Headers.values.
  induction l as [|e l IH]; simpl; [done|].
  destruct (Headers.same_name n e); simpl; [split; discriminate|exact IH].
Qed.

Lemma get_is_Some l n : is_Some (Headers.get l n) ↔ Headers.has l n = true.
Proof.
  unfold Headers.get. destruct (Headers.values l n) as [|v vs] eqn:E.
  - apply has_values in E. rewrite E. split; [intros [? ?]|]; discriminate.
  - destruct (Headers.has l n) eqn:H; [by split; eauto|].
    apply has_values in H. congruence.
Qed.

Lemma has_elem l n :
  Headers.has l n = true ↔
  ∃ e, In e l ∧ byteLowerCase (fst e) = byteLowerCase n.
Proof.
  unfold Headers.has. rewrite existsb_exists.
  split; intros (e & He & H); exists e; split; auto; by apply same_name_iff.
Qed.

(** [replace] once an entry was written: the named entries go. *)
Lemma values_replace_added l n v n' :
  Headers.values (Headers.replace n v true l) n' =
  if String.eqb (byteLowerCase n') (byteLowerCase n) then []
  else Headers.values l n'.
Proof.
  unfold Headers.values. induction l as [|e l IH]; simpl.
  - by destruct (String.eqb _ _).
  - destruct (Headers.same_name n e) eqn:E; simpl.
    + rewrite IH. destruct (String.eqb_spec (byteLowerCase n') (byteLowerCase n)) as [Heq|Hne]; [done|].
      rewrite (same_name_disjoint n n' e); auto.
    + destruct (Headers.same_name n' e) eqn:E'; simpl; rewrite IH;
        destruct (String.eqb_spec (byteLowerCase n') (byteLowerCase n)) as [Heq|Hne]; try done.
      apply same_name_iff in E'. unfold Headers.same_name in E.
      apply String.eqb_neq in E. congruence.
Qed.

Lemma values_replace l n v n' :
  Headers.has l n = true →
  Headers.values (Headers.replace n v false l) n' =
  if String.eqb (byteLowerCase n') (byteLowerCase n) then [v]
  else Headers.values l n'.
Proof.
  unfold Headers.has.
  induction l as [|e l IH]; simpl; [discriminate|].
  destruct (Headers.same_name n e) eqn:E; simpl.
  - intros _. unfold Headers.values at 1. simpl.
    unfold Headers.same_name at 1. simpl.
    fold (Headers.same_name n' e).
    pose proof (values_replace_added l n v n') as R.
    unfold Headers.values in R at 1. 
    destruct (String.eqb_spec (byteLowerCase n') (byteLowerCase n)) as [Heq|Hne].
    + assert (Headers.same_name n' e = true) as ->.
      { apply same_name_iff. apply same_name_iff in E. congruence. }
      simpl. by rewrite R.
    + rewrite (same_name_disjoint n n' e) by auto.
      rewrite R. unfold Headers.values. simpl.
      by rewrite (same_name_disjoint n n' e) by auto.
  - intros H. specialize (IH H). unfold Headers.values in *. simpl.
    destruct (Headers.same_name n' e) eqn:E'; simpl; rewrite IH;
      destruct (String.eqb_spec (byteLowerCase n') (byteLowerCase n)) as [Heq|Hne]; try done.
    apply same_name_iff in E'. unfold Headers.same_name in E.
    apply String.eqb_neq in E. congruence.
Qed.

(** After [set], the collection holds exactly the normalized value under
    that name, and every other name is as before. *)
Lemma values_set l n v n' :
  Headers.values (Headers.set l n v) n' =
  if String.eqb (byteLowerCase n') (byteLowerCase n)
  then [Headers.normalize v]
  else Headers.values l n'.
Proof.
  unfold Headers.set. destruct (Headers.has l n) eqn:H.
  - by apply values_replace.
  - apply has_values in H. unfold Headers.values in *.
    rewrite List.filter_app, map_app.
    destruct (String.eqb_spec (byteLowerCase n') (byteLowerCase n))
      as [Heq|Hne].
    + assert (List.filter (Headers.same_name n') l
              = List.filter (Headers.same_name n) l) as ->.
      { apply List.filter_ext. intros e. unfold Headers.same_name.
        by rewrite Heq. }
      rewrite H. simpl. unfold Headers.same_name. simpl.
      by rewrite Heq, String.eqb_refl.
    + simpl. unfold Headers.same_name at 2. simpl.
      destruct (String.eqb_spec (byteLowerCase n) (byteLowerCase n'));
        [congruence|].
      simpl. by rewrite app_nil_r.
Qed.

Lemma strip_trailing_trimmed s :
  match last_byte s with
  | Some d => is_http_whitespace d = false
  | None => True
  end →
  strip_trailing s = s.
Proof.
  induction s as [|c t IH]; [done|]. simpl.
  destruct t as [|c' t'].
  - simpl. by intros ->.
  - intros H. rewrite (IH H). done.
Qed.

(** A value without whitespace at its ends is its own normal form. *)
Lemma normalize_trimmed value :
  trimmed value = true → Headers.normalize value = value.
Proof.
  unfold Headers.normalize, trimmed. destruct value as [|c t]; [done|].
  intros [Hc Hl]%andb_true_iff. apply negb_true_iff in Hc.
  cbn [strip_leading]. rewrite Hc. apply strip_trailing_trimmed.
  destruct (last_byte (String c t)); [by apply negb_true_iff|done].
Qed.

Lemma get_set_same l n v :
  Headers.get (Headers.set l n v) n = Some (Headers.normalize v).
Proof.
  unfold Headers.get. rewrite values_set, String.eqb_refl. simpl.
  by destruct (Headers.normalize v).
Qed.

Lemma get_set_other l n v n' :
  byteLowerCase n' ≠ byteLowerCase n →
  Headers.get (Headers.set l n v) n' = Headers.get l n'.
Proof.
  intros Hne. unfold Headers.get. rewrite values_set.
  by destruct (String.eqb_spec (byteLowerCase n') (byteLowerCase n)).
Qed.

Lemma get_lower l n : Headers.get l (byteLowerCase n) = Headers.get l n.
Proof.
  unfold Headers.get, Headers.values.
  replace (List.filter (Headers.same_name (byteLowerCase n)) l)
    with (List.filter (Headers.same_name n) l); [done|].
  apply List.filter_ext. intros e. unfold Headers.same_name.
  by rewrite byteLowerCase_idempotent.
Qed.

(** The names a [set] leaves are those that were there and the one set. *)
Lemma names_replace l n v added x :
  In x (map fst (Headers.replace n v added l)) → In x (map fst l).
Proof.
  revert added. induction l as [|e l IH]; intros added; simpl; [done|].
  destruct (Headers.same_name n e).
  - destruct added; simpl; [eauto|]. intros [?|?]; eauto.
  - simpl. intros [?|?]; eauto.
Qed.

Lemma names_set l n v x :
  In x (map fst (Headers.set l n v)) → In x (map fst l) ∨ x = n.
Proof.
  unfold Headers.set. destruct (Headers.has l n).
  - intros H. left. eapply names_replace, H.
  - rewrite map_app, in_app_iff. simpl. intuition.
Qed.

End HeaderFacts.

(** ** Iteration order and the filters *)

Section FilterFacts.

Implicit Types (l h : Headers.t) (n k name value : string).

Lemma in_insert_sorted x n (names : list string) :
  In x (Headers.insert_sorted n names) ↔ x = n ∨ In x names.
Proof.
  induction names as [|m names IH]; simpl; [intuition|].
  destruct (String.compare n m) eqn:C; simpl.
  - apply String.compare_eq_iff in C. subst. intuition.
  - intuition.
  - rewrite IH. intuition.
Qed.

Lemma in_sorted_lowercase_names x l :
  In x (Headers.sorted_lowercase_names l) ↔
  ∃ e, In e l ∧ x = byteLowerCase (fst e).
Proof.
  unfold Headers.sorted_lowercase_names.
  induction l as [|e l IH]; simpl.
  - split; [done|]. by intros (? & [] & _).
  - rewrite in_insert_sorted, IH. split.
    + intros [->|(e' & ? & ->)]; eauto.
    + intros (e' & [<-|?] & ->); eauto.
Qed.

Lemma in_keys k l :
  In k (Headers.keys l) ↔ In k (Headers.sorted_lowercase_names l).
Proof.
  unfold Headers.keys, Headers.entries.
  rewrite in_map_iff. split.
  - intros ([k' v] & <- & H). apply in_flat_map in H as (name & Hn & H).
    destruct (String.eqb name "set-cookie").
    + apply in_map_iff in H as (? & [= <- _] & _). exact Hn.
    + destruct (Headers.get l name); [|done].
      destruct H as [[= <- _]|[]]. exact Hn.
  - intros Hn.
    assert (Headers.has l k = true) as Hhas.
    { apply in_sorted_lowercase_names in Hn as (e & He & ->).
      apply has_elem. exists e. by rewrite byteLowerCase_idempotent. }
    destruct (Headers.values l k) as [|v vs] eqn:E.
    { apply has_values in E. congruence. }
    exists (k, if String.eqb k "set-cookie" then v
               else String.concat ", " (v :: vs)).
    split; [done|]. apply in_flat_map. exists k. split; [done|].
    unfold Headers.get. rewrite E.
    destruct (String.eqb k "set-cookie"); simpl; auto.
Qed.

Lemma keys_spec k l :
  In k (Headers.keys l) ↔ byteLowerCase k = k ∧ Headers.has l k = true.
Proof.
  rewrite in_keys, in_sorted_lowercase_names, has_elem. split.
  - intros (e & He & ->). rewrite byteLowerCase_idempotent. eauto.
  - intros (Hk & e & He & Heq). exists e. split; [done|]. congruence.
Qed.

Lemma pickHeaders_pick_by h keys :
  pickHeaders h keys = pick_by (fun key => existsb (key_matches key) keys) h.
Proof. reflexivity. Qed.

Lemma deny_pickHeaders_pick_by h blockedKeys :
  DenyList.pickHeaders h blockedKeys =
  pick_by (fun key =>
             negb (DenyList.includes blockedKeys (DenyList.toLowerCase key)))
    h.
Proof. reflexivity. Qed.

Section Loop.

Variables (keep : string → bool) (h : Headers.t).

Let step (picked : Headers.t) (key : string) : Headers.t :=
  if keep key then
    match Headers.get h key with
    | Some value => Headers.set picked key value
    | None => picked
    end
  else picked.

Lemma get_step acc a k :
  byteLowerCase a = a → byteLowerCase k = k →
  Headers.get (step acc a) k =
  if String.eqb k a && keep k then
    match Headers.get h k with
    | Some v => Some (Headers.normalize v)
    | None => Headers.get acc k
    end
  else Headers.get acc k.
Proof.
  intros Ha Hk. unfold step.
  destruct (String.eqb_spec k a) as [->|Hne]; simpl.
  - destruct (keep a); [|done].
    destruct (Headers.get h a); [|done]. apply get_set_same.
  - destruct (keep a); [|done].
    destruct (Headers.get h a); [|done].
    apply get_set_other. congruence.
Qed.

Lemma get_loop ks acc k :
  (∀ x, In x ks → byteLowerCase x = x) → byteLowerCase k = k →
  Headers.get (foldl step acc ks) k =
  if existsb (String.eqb k) ks && keep k then
    match Headers.get h k with
    | Some v => Some (Headers.normalize v)
    | None => Headers.get acc k
    end
  else Headers.get acc k.
Proof.
  intros Hks Hk. revert acc.
  induction ks as [|a ks IH]; intros acc; simpl; [done|].
  rewrite IH by (intros; apply Hks; simpl; auto).
  rewrite get_step by (auto; apply Hks; simpl; auto).
  destruct (String.eqb k a), (existsb (String.eqb k) ks), (keep k);
    simpl; try done; by destruct (Headers.get h k).
Qed.

Lemma names_loop ks acc x :
  In x (map fst (foldl step acc ks)) →
  In x (map fst acc) ∨ (In x ks ∧ keep x = true).
Proof.
  revert acc. induction ks as [|a ks IH]; intros acc; simpl; [auto|].
  intros H. apply IH in H as [H|[H ?]]; [|by auto].
  unfold step in H. destruct (keep a) eqn:K; [|by auto].
  destruct (Headers.get h a); [|by auto].
  apply names_set in H as [H| ->]; auto.
Qed.

End Loop.

(** What a filter keeps under a lower-case name: the value the inbound
    collection reports, normalized, when the test lets the name pass. *)
Lemma get_pick_by keep h k :
  byteLowerCase k = k →
  Headers.get (pick_by keep h) k =
  if keep k then Headers.normalize <$> Headers.get h k else None.
Proof.
  intros Hk. unfold pick_by.
  rewrite get_loop by (auto; intros x Hx; by apply keys_spec in Hx as [? _]).
  assert (Headers.get Headers.empty k = None) as -> by done.
  destruct (existsb (String.eqb k) (Headers.keys h)) eqn:E; simpl.
  - destruct (keep k); [|done]. by destruct (Headers.get h k).
  - destruct (keep k); [|done].
    destruct (Headers.get h k) eqn:G; [|done]. exfalso.
    assert (In k (Headers.keys h)) as Hin.
    { apply keys_spec. split; [done|]. apply get_is_Some. eauto. }
    assert (existsb (String.eqb k) (Headers.keys h) = true); [|congruence].
    apply existsb_exists. exists k. split; [done|]. apply String.eqb_refl.
Qed.

(** The names a filter stores are keys of the inbound collection that
    passed the test. *)
Lemma names_pick_by keep h x :
  In x (map fst (pick_by keep h)) →
  In x (Headers.keys h) ∧ keep x = true.
Proof.
  unfold pick_by. intros H. by apply names_loop in H as [[]|?].
Qed.

End FilterFacts.

(** ** One timeout-bounded call *)

Section CallFacts.

Variable rt : Runtime.

Lemma find_skip {A} (f : A → bool) (l l' : list A) :
  (∀ x, In x l → f x = false) → List.find f (l ++ l') = List.find f l'.
Proof.
  induction l as [|a l IH]; simpl; [done|]. intros H.
  rewrite (H a) by auto. apply IH. auto.
Qed.

Lemma filter_all {A} (f : A → bool) (l : list A) :
  (∀ x, In x l → f x = true) → List.filter f l = l.
Proof.
  induction l as [|a l IH]; simpl; [done|]. intros H.
  rewrite (H a) by auto. f_equal. apply IH. auto.
Qed.

(** With any way of attaching the signal, the three-step wrapper sets
    its timer, calls, and clears the timer on either path. *)
Lemma timeout_wrapper (attach : RequestInit → nat → RequestInit)
  url options timeout w :
  fresh_ids w →
  (∀ o c, init_signal (attach o c) = Some c) →
  (controller <- new_AbortController ;;
   timeoutId <- setTimeout_abort controller timeout ;;
   try_catch
     (response <- fetch rt url (attach options controller) ;;
      clearTimeout timeoutId ;;;
      ret response)
     (fun error => clearTimeout timeoutId ;;; throw error))%async w
  = (timed rt timeout (fetches w),
     after_call rt timeout url (attach options (next_id w)) w).
Proof.
  intros Hw Hsig.
  assert (∀ t, In t (timers w) →
               negb (timer_id t =? S (next_id w))%nat = true) as Hold.
  { intros t Ht. apply Hw in Ht as [? _].
    apply negb_true_iff, Nat.eqb_neq. lia. }
  unfold bind, try_catch, new_AbortController, setTimeout_abort, fetch,
    clearTimeout, ret, throw, timed, after_call. simpl.
  rewrite Hsig. rewrite find_skip.
  2:{ intros t Ht. apply Hw in Ht as [_ ?].
      apply andb_false_iff. left. apply Nat.eqb_neq. lia. }
  simpl. rewrite Nat.eqb_refl. simpl.
  replace (now w + timeout <=? now w + latency (network rt (fetches w)))
    with (timeout <=? latency (network rt (fetches w)))
    by (apply eq_true_iff_eq; rewrite !Z.leb_le; lia).
  destruct (timeout <=? latency (network rt (fetches w))) eqn:E; simpl.
  - rewrite !List.filter_app. simpl. rewrite Nat.eqb_refl. simpl.
    rewrite app_nil_r, !(filter_all _ (timers w)) by auto.
    f_equal. f_equal. by rewrite <- !app_assoc.
  - unfold settle.
    destruct (settled (network rt (fetches w))); simpl;
      rewrite !List.filter_app; simpl; rewrite Nat.eqb_refl; simpl;
      rewrite app_nil_r, !(filter_all _ (timers w)) by auto;
      f_equal; f_equal; by rewrite <- !app_assoc.
Qed.

Lemma Retry_fetchWithTimeout url options timeout w :
  fresh_ids w →
  Retry.fetchWithTimeout rt url options timeout w =
  (timed rt timeout (fetches w),
   after_call rt timeout url (Retry.with_signal options (next_id w)) w).
Proof. intros Hw. by apply (timeout_wrapper Retry.with_signal). Qed.

Lemma DenyList_fetchWithTimeout url options timeout w :
  fresh_ids w →
  DenyList.fetchWithTimeout rt url options timeout w =
  (timed rt timeout (fetches w),
   after_call rt timeout url
     (DenyList.with_signal_half options (next_id w)) w).
Proof. intros Hw. by apply (timeout_wrapper DenyList.with_signal_half). Qed.

Lemma fresh_ids_after_call timeout url init w :
  fresh_ids w → fresh_ids (after_call rt timeout url init w).
Proof.
  intros Hw t Ht. simpl in *. apply Hw in Ht as [? ?]. lia.
Qed.

End CallFacts.

(** ** The retry loop *)

Section RetryFacts.

Variable rt : Runtime.

Lemma steps_app a b : steps (a ++ b) = steps a ++ steps b.
Proof. apply flat_map_app. Qed.

Lemma proxy_errors_app a b :
  proxy_errors (a ++ b) = proxy_errors a ++ proxy_errors b.
Proof. apply flat_map_app. Qed.

Lemma continues_refl w : fresh_ids w → continues w w [].
Proof.
  intros Hw. unfold continues. rewrite app_nil_r.
  split; [done|]. split; [done|]. split; [done|lia].
Qed.

Lemma continues_trans w1 w2 w3 evs evs' :
  continues w1 w2 evs → continues w2 w3 evs' →
  continues w1 w3 (evs ++ evs').
Proof.
  intros (T1 & M1 & F1 & N1) (T2 & M2 & F2 & N2). unfold continues.
  rewrite T2, T1, M2, M1, app_assoc.
  split; [done|]. split; [done|]. split; [done|lia].
Qed.

Lemma steps_call id timeout url init (fired : bool) :
  steps ([ESetTimeout id timeout; EFetch url init]
         ++ (if fired then [ETimeoutFired id] else [])
         ++ [EClearTimeout id]) = [Attempt].
Proof. by destruct fired. Qed.

Lemma proxy_errors_call id timeout url init (fired : bool) :
  proxy_errors ([ESetTimeout id timeout; EFetch url init]
                ++ (if fired then [ETimeoutFired id] else [])
                ++ [EClearTimeout id]) = [].
Proof. by destruct fired. Qed.

Lemma continues_after_call timeout url init w :
  fresh_ids w →
  ∃ evs, continues w (after_call rt timeout url init w) evs
         ∧ steps evs = [Attempt] ∧ proxy_errors evs = []
         ∧ fetches (after_call rt timeout url init w) = S (fetches w).
Proof.
  intros Hw. eexists. split; [|split; [|split]].
  - unfold continues. simpl. split; [reflexivity|].
    split; [reflexivity|]. split; [by apply fresh_ids_after_call|lia].
  - apply steps_call.
  - apply proxy_errors_call.
  - reflexivity.
Qed.

Lemma timed_Return timeout k r :
  timed rt timeout k = Return r → settled (network rt k) = Resolved r.
Proof.
  unfold timed, settle. destruct (timeout <=? _); [done|].
  destruct (settled (network rt k)); congruence.
Qed.

Lemma continues_sleep ms w :
  fresh_ids w →
  continues w (snd (sleep ms w)) [ESleep ms]
  ∧ fetches (snd (sleep ms w)) = fetches w.
Proof.
  intros Hw. unfold continues. simpl.
  split; [|done]. split; [done|]. split; [done|]. split; [|lia].
  intros t Ht. simpl in *. apply Hw in Ht as [? ?]. lia.
Qed.

Lemma attempt_label_not_proxy attempt :
  String.eqb (DenyList.attempt_label attempt) "Proxy error:" = false.
Proof. reflexivity. Qed.

Lemma backoff (attempt retries delay : Z) w :
  fresh_ids w →
  ∃ w2 evs,
    (if attempt <? retries then sleep delay else ret tt) w = (Return tt, w2)
    ∧ continues w w2 evs ∧ fetches w2 = fetches w
    ∧ steps evs = (if attempt <? retries then [Delay delay] else [])
    ∧ proxy_errors evs = [].
Proof.
  intros Hw. destruct (attempt <? retries).
  - destruct (continues_sleep delay w Hw) as [Hc Hf].
    by exists (snd (sleep delay w)), [ESleep delay].
  - exists w, []. split; [done|]. split; [by apply continues_refl|done].
Qed.

Lemma Retry_attempts url options retries todo :
  ∀ lastError w, fresh_ids w →
    loop_ok rt retries todo lastError w
      (Retry.attempts rt url options retries todo lastError w).
Proof.
  induction todo as [|attempt later IH]; intros lastError w Hw.
  - exists []. simpl. split; [done|]. split; [by apply continues_refl|done].
  - unfold loop_ok. cbn [Retry.attempts first_success schedule].
    unfold try_catch. rewrite Retry_fetchWithTimeout by done.
    change Retry.REQUEST_TIMEOUT with 20000.
    change Retry.RETRY_DELAY with 1000.
    destruct (continues_after_call 20000 url
                (Retry.with_signal options (next_id w)) w Hw)
      as (evs & Hc & Hs & Hp & Hf).
    set (w1 := after_call rt 20000 url _ w) in *.
    destruct (timed rt 20000 (fetches w)) as [r|e] eqn:T.
    + exists evs. cbn [fst snd].
      split; [done|]. split; [done|]. split; [done|]. split; [done|].
      intros r' [= <-]. rewrite Hf. split; [lia|].
      simpl. by eapply timed_Return.
    + assert (fresh_ids w1) as Hw1 by apply Hc.
      destruct (backoff attempt retries (1000 * (attempt + 1)) w1 Hw1)
        as (w2 & evs2 & E2 & Hc2 & Hf2 & Hs2 & Hp2).
      assert (((if attempt <? retries
                then sleep (1000 * (attempt + 1)) else ret tt) ;;;
               Retry.attempts rt url options retries later e)%async w1
              = Retry.attempts rt url options retries later e w2) as ->
        by (unfold bind; by rewrite E2).
      destruct (IH e w2 ltac:(apply Hc2))
        as (evs' & R & Hc' & Hs' & Hp' & Hr').
      exists (evs ++ evs2 ++ evs').
      split; [by rewrite R, Hf2, Hf|].
      split; [eapply continues_trans; [exact Hc|];
              eapply continues_trans; [exact Hc2|exact Hc']|].
      split; [rewrite !steps_app, Hs, Hs2, Hs', Hf2, Hf; reflexivity|].
      split; [rewrite !proxy_errors_app, Hp, Hp2, Hp'; reflexivity|].
      intros r Hr. apply Hr' in Hr as [? ?]. split; [|done].
      rewrite Hf2, Hf in *. lia.
Qed.

Lemma DenyList_attempts url options retries todo :
  ∀ lastError w, fresh_ids w →
    loop_ok rt retries todo lastError w
      (DenyList.attempts rt url options retries todo lastError w).
Proof.
  induction todo as [|attempt later IH]; intros lastError w Hw.
  - exists []. simpl. split; [done|]. split; [by apply continues_refl|done].
  - unfold loop_ok. cbn [DenyList.attempts first_success schedule].
    unfold try_catch. rewrite DenyList_fetchWithTimeout by done.
    change DenyList.REQUEST_TIMEOUT with 20000.
    change DenyList.RETRY_DELAY with 1000.
    destruct (continues_after_call 20000 url
                (DenyList.with_signal_half options (next_id w)) w Hw)
      as (evs & Hc & Hs & Hp & Hf).
    set (w1 := after_call rt 20000 url _ w) in *.
    destruct (timed rt 20000 (fetches w)) as [r|e] eqn:T.
    + exists evs. cbn [fst snd].
      split; [done|]. split; [done|]. split; [done|]. split; [done|].
      intros r' [= <-]. rewrite Hf. split; [lia|].
      simpl. by eapply timed_Return.
    + assert (fresh_ids w1) as Hw1 by apply Hc.
      set (note := EConsoleError (DenyList.attempt_label attempt) e).
      assert (continues w1 (log note w1) [note]) as Hcl.
      { unfold continues. simpl. split; [done|]. split; [done|].
        split; [exact Hw1|lia]. }
      destruct (backoff attempt retries (1000 * (attempt + 1))
                  (log note w1) ltac:(apply Hcl))
        as (w2 & evs2 & E2 & Hc2 & Hf2 & Hs2 & Hp2).
      assert ((console_error (DenyList.attempt_label attempt) e ;;;
               (if attempt <? retries
                then sleep (1000 * (attempt + 1)) else ret tt) ;;;
               DenyList.attempts rt url options retries later e)%async w1
              = DenyList.attempts rt url options retries later e w2) as ->
        by (unfold bind, console_error; fold note; by rewrite E2).
      destruct (IH e w2 ltac:(apply Hc2))
        as (evs' & R & Hc' & Hs' & Hp' & Hr').
      exists (evs ++ [note] ++ evs2 ++ evs').
      change (fetches (log note w1)) with (fetches w1) in Hf2.
      split; [by rewrite R, Hf2, Hf|].
      split; [eapply continues_trans; [exact Hc|];
              eapply continues_trans; [exact Hcl|];
              eapply continues_trans; [exact Hc2|exact Hc']|].
      split; [rewrite !steps_app, Hs, Hs2, Hs', Hf2, Hf; reflexivity|].
      split.
      { rewrite !proxy_errors_app, Hp, Hp2, Hp'. unfold note.
        unfold proxy_errors, flat_map, proxy_error_of.
        by rewrite attempt_label_not_proxy. }
      intros r Hr. apply Hr' in Hr as [? ?]. split; [|done].
      rewrite Hf2, Hf in *. lia.
Qed.

End RetryFacts.

(** ** The branches of the handlers *)

Section BranchFacts.

Variable rt : Runtime.

Lemma preflight_run w : preflight rt w = (Return preflight_response, w).
Proof. reflexivity. Qed.

Lemma proxy_error_run e w :
  proxy_error rt e w =
  (Return (bad_gateway e), log (EConsoleError "Proxy error:" e) w).
Proof.
  unfold proxy_error, bind, console_error, new_Response, spread. simpl.
  unfold ret, bad_gateway. by rewrite <- insert_union_singleton_l.
Qed.

Lemma relay_run r w :
  relay rt r w =
  (match rewrap_error rt r with
   | Some x => Throw x
   | None => Return (relayed r)
   end, w).
Proof.
  unfold relay, rewrap_error, new_Response, relayed, spread. simpl.
  destruct (negb _); [done|].
  destruct (fetched_body r); try done;
    by destruct (null_body_status (fetched_status r)).
Qed.

(** A status a response may be created with, and a body only where the
    status admits one: the upstream response is wrapped as it is. *)
Lemma rewrap_error_None r :
  200 <= fetched_status r <= 599 →
  (null_body_status (fetched_status r) = true → fetched_body r = BodyNull) →
  rewrap_error rt r = None.
Proof.
  intros Hs Hb. unfold rewrap_error.
  replace ((200 <=? fetched_status r) && (fetched_status r <=? 599))
    with true by (symmetry; apply andb_true_iff; lia).
  simpl. destruct (fetched_body r); try done;
    by destruct (null_body_status (fetched_status r)); [specialize (Hb eq_refl)|].
Qed.

Lemma landing_run w :
  new_Response rt (BodyText Landing.blank_html)
    (spread CORS_HEADERS {["content-type" := "text/html"]}) None w
  = (Return landing_response, w).
Proof.
  unfold new_Response, spread, landing_response. simpl.
  by rewrite <- insert_union_singleton_l.
Qed.

Lemma copy_params_spec params url :
  copy_params params url =
  URL.mk (URL.protocol url) (URL.host url) (URL.pathname url)
    (URL.searchParams url ++ params).
Proof.
  unfold copy_params. revert url.
  induction params as [|[k v] params IH]; intros url; simpl.
  - rewrite app_nil_r. by destruct url.
  - rewrite IH. simpl. by rewrite <- app_assoc.
Qed.

Lemma upstream_url_run request w :
  upstream_url rt request w =
  (match URL.parse (parse_authority rt) (URL.pathname (req_url request))
           UPSTREAM with
   | Some url =>
       Return (copy_params
                 (URL.searchParams_delete "_path"
                    (URL.searchParams (req_url request))) url)
   | None => Throw (invalid_url rt)
   end, w).
Proof.
  unfold upstream_url, new_URL, bind.
  by destruct (URL.parse _ _ _).
Qed.

(** A path with a single leading slash stays on the upstream host. *)
Lemma parse_single_slash pa pathname :
  single_slash pathname = true →
  URL.parse pa pathname UPSTREAM =
  Some (URL.mk "https:" "generativelanguage.googleapis.com" pathname []).
Proof.
  destruct pathname as [|c [|c' rest]]; simpl; try done.
  - destruct (Ascii.eqb_spec c "/"%char) as [->|]; [done|].
    destruct c as [[] [] [] [] [] [] [] []]; done.
  - destruct (Ascii.eqb_spec c "/"%char) as [->|].
    + destruct (Ascii.eqb_spec c' "/"%char) as [->|]; [done|].
      intros _. destruct c' as [[] [] [] [] [] [] [] []]; done.
    + destruct c as [[] [] [] [] [] [] [] []]; done.
Qed.

Lemma fetch_unsignalled url init w :
  init_signal init = None →
  fetch rt url init w =
  (settle (network rt (fetches w)),
   {| now := now w + latency (network rt (fetches w));
      fetches := S (fetches w); next_id := next_id w;
      timers := timers w; trace := trace w ++ [EFetch url init] |}).
Proof.
  intros H. unfold fetch. rewrite H.
  assert (List.find (λ _ : Timer, false) (timers w) = None) as ->; [|done].
  induction (timers w); simpl; auto.
Qed.

End BranchFacts.

(** ** The forward path *)

Section ForwardFacts.

Variable rt : Runtime.

(** Past the preflight and landing tests every variant is the same
    try block around its upstream call. *)
Lemma handler_forward v request url w :
  req_method request ≠ "OPTIONS" →
  serves_landing v request = false →
  URL.parse (parse_authority rt) (URL.pathname (req_url request)) UPSTREAM
  = Some url →
  handler rt v request w =
  try_catch
    (response <- upstream_call rt v (target url request)
                   (outbound_init v request) ;;
     relay rt response)
    (proxy_error rt) w.
Proof.
  intros Hm Hl Hp. apply String.eqb_neq in Hm.
  destruct v; simpl in *;
    unfold Direct.default, Retry.default, Landing.default, DenyList.default;
    rewrite Hm; try rewrite Hl;
    unfold bind at 1; rewrite upstream_url_run, Hp; reflexivity.
Qed.

Lemma handler_preflight v request w :
  req_method request = "OPTIONS" →
  handler rt v request w = (Return preflight_response, w).
Proof.
  intros Hm. apply String.eqb_eq in Hm.
  destruct v; simpl;
    unfold Direct.default, Retry.default, Landing.default, DenyList.default;
    by rewrite Hm.
Qed.

Lemma handler_landing request w :
  req_method request ≠ "OPTIONS" →
  serves_landing VLanding request = true →
  handler rt VLanding request w = (Return landing_response, w).
Proof.
  intros Hm Hl. apply String.eqb_neq in Hm. simpl in *.
  unfold Landing.default. rewrite Hm, Hl. apply landing_run.
Qed.

Lemma handler_invalid_url v request w :
  req_method request ≠ "OPTIONS" →
  serves_landing v request = false →
  URL.parse (parse_authority rt) (URL.pathname (req_url request)) UPSTREAM
  = None →
  handler rt v request w = (Throw (invalid_url rt), w).
Proof.
  intros Hm Hl Hp. apply String.eqb_neq in Hm.
  destruct v; simpl in *;
    unfold Direct.default, Retry.default, Landing.default, DenyList.default;
    rewrite Hm; try rewrite Hl;
    unfold bind at 1; rewrite upstream_url_run, Hp; reflexivity.
Qed.

(** What every upstream call leaves behind. *)
Lemma upstream_call_ok v url init w :
  fresh_ids w → init_signal init = None →
  ∃ evs,
    fst (upstream_call rt v url init w) = upstream_result rt v (fetches w)
    ∧ continues w (snd (upstream_call rt v url init w)) evs
    ∧ proxy_errors evs = []
    ∧ (∀ r, fst (upstream_call rt v url init w) = Return r →
            (fetches w < fetches (snd (upstream_call rt v url init w)))%nat
            ∧ settled
                (network rt
                   (pred (fetches (snd (upstream_call rt v url init w)))))
              = Resolved r).
Proof.
  intros Hw Hs. destruct v; simpl.
  - rewrite fetch_unsignalled by done. exists [EFetch url init]. simpl.
    split; [done|]. split.
    { unfold continues. simpl. split; [done|]. split; [done|].
      split; [exact Hw|lia]. }
    split; [done|]. intros r Hr. split; [lia|].
    unfold settle in Hr. destruct (settled _); congruence.
  - destruct (Retry_attempts rt url init Retry.MAX_RETRIES [0; 1; 2]
                JSNull w Hw) as (evs & R & Hc & _ & Hp & Hr).
    exists evs. eauto.
  - destruct (Retry_attempts rt url init Retry.MAX_RETRIES [0; 1; 2]
                JSNull w Hw) as (evs & R & Hc & _ & Hp & Hr).
    exists evs. eauto.
  - destruct (DenyList_attempts rt url init DenyList.MAX_RETRIES [0; 1; 2]
                JSNull w Hw) as (evs & R & Hc & _ & Hp & Hr).
    exists evs. eauto.
Qed.

(** The try block around a call: a response is wrapped and relayed, or
    cannot be wrapped and ends in the catch branch like a failed call. *)
Lemma try_forward (call : Async FetchResponse) c w w1 :
  call w = (c, w1) →
  try_catch (response <- call ;; relay rt response) (proxy_error rt) w =
  match c with
  | Return r =>
      match rewrap_error rt r with
      | None => (Return (relayed r), w1)
      | Some x =>
          (Return (bad_gateway x), log (EConsoleError "Proxy error:" x) w1)
      end
  | Throw e =>
      (Return (bad_gateway e), log (EConsoleError "Proxy error:" e) w1)
  end.
Proof.
  intros E. unfold try_catch, bind. rewrite E. destruct c as [r|e].
  - rewrite relay_run. destruct (rewrap_error rt r); [|done].
    apply proxy_error_run.
  - apply proxy_error_run.
Qed.

End ForwardFacts.

(** * The claims *)

Lemma fresh_ids_initial : fresh_ids initial_world.
Proof. intros t []. Qed.

(** C5. A request with method OPTIONS is answered at once in every
    variant: status 200, no body, the three cross-origin headers and no
    other, and the world is left as it was, so no upstream call was made. *)
Theorem C5_preflight_short_circuit rt v request w :
  req_method request = "OPTIONS" →
  handler rt v request w =
    (Return {| status := 200; headers := CORS_HEADERS; body := BodyNull |}, w)
  ∧ CORS_HEADERS =
      list_to_map [("access-control-allow-origin", "*");
                   ("access-control-allow-methods", "*");
                   ("access-control-allow-headers", "*")]
  ∧ size CORS_HEADERS = 3%nat.
Proof.
  intros Hm. split; [by apply handler_preflight|]. split; [|done].
  apply map_eq. intros k. unfold CORS_HEADERS. simpl.
  destruct (decide (k = "access-control-allow-origin")) as [->|]; [done|].
  destruct (decide (k = "access-control-allow-methods")) as [->|]; [done|].
  destruct (decide (k = "access-control-allow-headers")) as [->|]; [done|].
  by rewrite !lookup_insert_ne.
Qed.

Lemma C5_preflight_short_circuit_witness :
  handler (sample_runtime connection_refused) VDenyList
    (sample_request "OPTIONS" "/v1/models") initial_world
  = (Return {| status := 200; headers := CORS_HEADERS; body := BodyNull |},
     initial_world).
Proof.
  apply (C5_preflight_short_circuit (sample_runtime connection_refused)
           VDenyList (sample_request "OPTIONS" "/v1/models") initial_world).
  reflexivity.
Defined.

(** C9. The timeout-bounded call of both retrying variants clears its
    timer before it returns, whether it returns a response or throws: the
    last event is the clearing of the timer it set, and the timers left
    are those that were there before. *)
Theorem C9_timer_cleared rt url options timeout w :
  fresh_ids w →
  ∀ out,
    out = Retry.fetchWithTimeout rt url options timeout w
    ∨ out = DenyList.fetchWithTimeout rt url options timeout w →
    timers (snd out) = timers w
    ∧ (∀ t, In t (timers (snd out)) → timer_id t ≠ S (next_id w))
    ∧ ∃ evs,
        trace (snd out) =
        trace w ++ ESetTimeout (S (next_id w)) timeout :: evs
                ++ [EClearTimeout (S (next_id w))].
Proof.
  intros Hw out Hout.
  assert (∃ init, out = (timed rt timeout (fetches w),
                         after_call rt timeout url init w)) as (init & ->).
  { destruct Hout as [-> | ->]; eexists.
    - by apply Retry_fetchWithTimeout.
    - by apply DenyList_fetchWithTimeout. }
  simpl. split; [done|]. split.
  - intros t Ht. apply Hw in Ht as [? _]. lia.
  - eexists (EFetch url init :: _). reflexivity.
Qed.

Lemma C9_timer_cleared_witness :
  timers (snd (Retry.fetchWithTimeout (sample_runtime connection_refused)
                 UPSTREAM
                 (outbound_init VRetry (sample_request "GET" "/v1/models"))
                 20000 initial_world)) = [].
Proof.
  apply (C9_timer_cleared (sample_runtime connection_refused) UPSTREAM
           (outbound_init VRetry (sample_request "GET" "/v1/models"))
           20000 initial_world fresh_ids_initial _ (or_introl eq_refl)).
Defined.

(** C3. The retry wrapper of both retrying variants, called with the
    default of two retries.  When the timeout-bounded call fails three
    times, three attempts are made with waits of 1000 and 2000
    milliseconds between them and none after the last, and the wrapper
    throws the error of the third attempt.  When an attempt succeeds its
    response is returned and nothing more is attempted. *)
Theorem C3_retry_schedule rt url options w :
  fresh_ids w →
  ∀ out,
    out = Retry.fetchWithRetry rt url options Retry.MAX_RETRIES w
    ∨ out = DenyList.fetchWithRetry rt url options DenyList.MAX_RETRIES w →
    let k := fetches w in
    ∃ evs,
      trace (snd out) = trace w ++ evs
      ∧ (∀ e0 e1 e2,
            timed rt 20000 k = Throw e0 →
            timed rt 20000 (S k) = Throw e1 →
            timed rt 20000 (S (S k)) = Throw e2 →
            fst out = Throw e2
            ∧ steps evs =
                [Attempt; Delay 1000; Attempt; Delay 2000; Attempt])
      ∧ (∀ r,
            timed rt 20000 k = Return r →
            fst out = Return r ∧ steps evs = [Attempt])
      ∧ (∀ e0 r,
            timed rt 20000 k = Throw e0 →
            timed rt 20000 (S k) = Return r →
            fst out = Return r
            ∧ steps evs = [Attempt; Delay 1000; Attempt])
      ∧ (∀ e0 e1 r,
            timed rt 20000 k = Throw e0 →
            timed rt 20000 (S k) = Throw e1 →
            timed rt 20000 (S (S k)) = Return r →
            fst out = Return r
            ∧ steps evs =
                [Attempt; Delay 1000; Attempt; Delay 2000; Attempt]).
Proof.
  intros Hw out Hout k.
  assert (loop_ok rt 2 [0; 1; 2] JSNull w out) as (evs & R & Hc & Hs & _).
  { destruct Hout as [-> | ->].
    - apply (Retry_attempts rt url options Retry.MAX_RETRIES [0; 1; 2]
               JSNull w Hw).
    - apply (DenyList_attempts rt url options DenyList.MAX_RETRIES [0; 1; 2]
               JSNull w Hw). }
  exists evs. split; [apply Hc|].
  rewrite R, Hs. fold k. simpl.
  split; [|split; [|split]].
  - intros e0 e1 e2 H0 H1 H2. by rewrite H0, H1, H2.
  - intros r H0. by rewrite H0.
  - intros e0 r H0 H1. by rewrite H0, H1.
  - intros e0 e1 r H0 H1 H2. by rewrite H0, H1, H2.
Qed.

Lemma C3_retry_schedule_witness :
  fst (DenyList.fetchWithRetry (sample_runtime connection_refused) UPSTREAM
         (outbound_init VDenyList (sample_request "GET" "/v1/models"))
         DenyList.MAX_RETRIES initial_world)
  = Throw (JSError "TypeError" "connection refused").
Proof.
  destruct (C3_retry_schedule (sample_runtime connection_refused) UPSTREAM
              (outbound_init VDenyList (sample_request "GET" "/v1/models"))
              initial_world fresh_ids_initial _ (or_intror eq_refl))
    as (evs & _ & Hfail & _).
  exact (proj1 (Hfail _ _ _ eq_refl eq_refl eq_refl)).
Defined.



Lemma allowed_test key :
  existsb (key_matches key) ALLOWED_HEADERS = true ↔ In key allowed_names.
Proof.
  unfold ALLOWED_HEADERS, allowed_names. cbn [existsb key_matches In].
  rewrite !orb_true_iff, !String.eqb_eq. intuition discriminate.
Qed.

Lemma allowed_names_lower k : In k allowed_names → byteLowerCase k = k.
Proof.
  unfold allowed_names. simpl. intros H.
  repeat destruct H as [<-|H]; try reflexivity. destruct H.
Qed.


(** C6, as the code has it.  The allow-list filter keeps entries under
    names of the allow-list only; a name outside the list has no entry;
    a key passes by exact equality with a listed name; and the value
    kept is the one the inbound collection reports with leading and
    trailing HTTP whitespace removed, which [Headers.set] does; a value
    without whitespace at its ends is therefore kept as it is. *)
Theorem C6_allow_list_filter h :
  (∀ name value,
      In (name, value) (pickHeaders h ALLOWED_HEADERS) →
      In name allowed_names)
  ∧ (∀ name,
        ¬ In (byteLowerCase name) allowed_names →
        Headers.get (pickHeaders h ALLOWED_HEADERS) name = None)
  ∧ (∀ key,
        existsb (key_matches key) ALLOWED_HEADERS = true ↔
        In key allowed_names)
  ∧ (∀ name,
        In name allowed_names →
        Headers.get (pickHeaders h ALLOWED_HEADERS) name =
        Headers.normalize <$> Headers.get h name)
  ∧ (∀ name value,
        In name allowed_names →
        Headers.get h name = Some value →
        trimmed value = true →
        Headers.get (pickHeaders h ALLOWED_HEADERS) name = Some value).
Proof.
  rewrite pickHeaders_pick_by. split; [|split; [|split; [|split]]].
  - intros name value H.
    assert (In name (map fst (pick_by
              (λ key, existsb (key_matches key) ALLOWED_HEADERS) h))) as Hn.
    { apply in_map_iff. by exists (name, value). }
    apply names_pick_by in Hn as [_ Hk]. by apply allowed_test.
  - intros name Hn. rewrite <- get_lower.
    rewrite get_pick_by by apply byteLowerCase_idempotent.
    destruct (existsb _ ALLOWED_HEADERS) eqn:E; [|done].
    by apply allowed_test in E.
  - apply allowed_test.
  - intros name Hn. rewrite get_pick_by by by apply allowed_names_lower.
    apply allowed_test in Hn. by rewrite Hn.
  - intros name value Hn Hv Ht.
    rewrite get_pick_by by by apply allowed_names_lower.
    apply allowed_test in Hn. rewrite Hn, Hv. simpl.
    by rewrite normalize_trimmed.
Qed.

(** C6, as it is written, fails: two inbound [accept-encoding] headers,
    the second one empty, are reported as ["gzip, "] and kept as
    ["gzip,"]. *)
Lemma C6_value_not_verbatim :
  ¬ values_unmodified [("accept-encoding", "gzip"); ("accept-encoding", "")].
Proof.
  intros H. specialize (H "accept-encoding" "gzip," eq_refl). discriminate H.
Qed.




Lemma C6_allow_list_filter_witness :
  Headers.get
    (pickHeaders [("Content-Type", "text/plain"); ("Cookie", "session=1")]
       ALLOWED_HEADERS) "cookie" = None.
Proof.
  apply (C6_allow_list_filter
           [("Content-Type", "text/plain"); ("Cookie", "session=1")]).
  vm_compute. intuition discriminate.
Defined.


(** ** Where the target and the relayed headers leave the claims *)

(** On a path with a single leading slash the target is on the upstream
    host, with the inbound path and the inbound parameters other than
    [_path] in their order. *)
Lemma target_on_upstream rt request w :
  single_slash (URL.pathname (req_url request)) = true →
  upstream_url rt request w =
  (Return
     (URL.mk "https:" "generativelanguage.googleapis.com"
        (URL.pathname (req_url request))
        (List.filter (fun p => negb (String.eqb (fst p) "_path"))
           (URL.searchParams (req_url request)))), w).
Proof.
  intros H. rewrite upstream_url_run, (parse_single_slash _ _ H).
  by rewrite copy_params_spec.
Qed.

Lemma target_without_path_parameter rt request url w key value :
  upstream_url rt request w = (Return url, w) →
  In (key, value) (URL.searchParams url) → key ≠ "_path".
Proof.
  rewrite upstream_url_run.
  destruct (URL.parse _ _ _) as [u|] eqn:P; [|done].
  intros [= <-]. rewrite copy_params_spec. simpl.
  assert (URL.searchParams u = []) as ->.
  { unfold URL.parse in P.
    destruct (URL.pathname (req_url request)) as [|c [|c' rest]];
      repeat case_match; by simplify_eq. }
  simpl. unfold URL.searchParams_delete. rewrite filter_In.
  intros [_ H]. apply negb_true_iff, String.eqb_neq in H. exact H.
Qed.

Example target_of_models_request :
  URL.href
    (target (URL.mk "https:" "generativelanguage.googleapis.com"
               "/v1/models" [])
       (sample_request "GET" "/v1/models"))
  = "https://generativelanguage.googleapis.com/v1/models?key=abc".
Proof. reflexivity. Qed.

(** C1, where the code leaves it.  A request path that begins with two
    slashes is read by [new URL(pathname, base)] as a reference with an
    authority of its own: for [//evil.com/x] the target is
    [https://evil.com/x?key=abc], and that is what proxy.ts fetches. *)
Theorem C1_double_slash_path_leaves_upstream rt w method :
  method ≠ "OPTIONS" →
  parse_authority rt "evil.com" = Some "evil.com" →
  let request := sample_request method "//evil.com/x" in
  let url := URL.mk "https:" "evil.com" "/x" [("key", "abc")] in
  upstream_url rt request w = (Return url, w)
  ∧ URL.href url = "https://evil.com/x?key=abc"
  ∧ ∃ rest,
      trace (snd (Direct.default rt request w)) =
      trace w ++ EFetch url (outbound_init VDirect request) :: rest.
Proof.
  intros Hm Hp request url.
  assert (URL.parse (parse_authority rt) (URL.pathname (req_url request))
            UPSTREAM = Some (URL.mk "https:" "evil.com" "/x" [])) as P.
  { unfold URL.parse. simpl. by rewrite Hp. }
  split; [by rewrite upstream_url_run, P|]. split; [reflexivity|].
  change (Direct.default rt request w) with (handler rt VDirect request w).
  rewrite (handler_forward rt VDirect request _ w Hm eq_refl P).
  erewrite try_forward by (simpl; by apply fetch_unsignalled).
  destruct (settle _) as [r|e].
  - destruct (rewrap_error rt r); simpl.
    + exists [EConsoleError "Proxy error:" j]. by rewrite <- app_assoc.
    + by exists [].
  - exists [EConsoleError "Proxy error:" e]. simpl. by rewrite <- app_assoc.
Qed.

Lemma C1_double_slash_path_leaves_upstream_witness :
  upstream_url (sample_runtime connection_refused)
    (sample_request "GET" "//evil.com/x") initial_world
  = (Return (URL.mk "https:" "evil.com" "/x" [("key", "abc")]),
     initial_world).
Proof.
  apply (C1_double_slash_path_leaves_upstream
           (sample_runtime connection_refused) initial_world "GET").
  - discriminate.
  - reflexivity.
Defined.





(** A response the runtime can wrap again is relayed as the claim says:
    same status, same body, and the upstream entries laid over the
    cross-origin headers. *)
Lemma relayed_when_wrappable rt v request url w r :
  fresh_ids w →
  req_method request ≠ "OPTIONS" →
  serves_landing v request = false →
  URL.parse (parse_authority rt) (URL.pathname (req_url request)) UPSTREAM
  = Some url →
  upstream_result rt v (fetches w) = Return r →
  200 <= fetched_status r <= 599 →
  (null_body_status (fetched_status r) = true → fetched_body r = BodyNull) →
  fst (handler rt v request w) =
  Return
    {| status := fetched_status r;
       headers :=
         Object_fromEntries (Headers.entries (fetched_headers r))
         ∪ CORS_HEADERS;
       body := fetched_body r |}.
Proof.
  intros Hw Hm Hl Hp Hr Hs Hb.
  rewrite (handler_forward rt v request url w Hm Hl Hp).
  destruct (upstream_call_ok rt v (target url request)
              (outbound_init v request) w Hw eq_refl) as (evs & R & _).
  destruct (upstream_call rt v (target url request) (outbound_init v request) w)
    as [c w1] eqn:E.
  rewrite (try_forward rt _ c w w1 E).
  simpl in R. rewrite Hr in R. subst c.
  by rewrite rewrap_error_None.
Qed.

(** A status outside 200..599 cannot be wrapped: the catch branch
    answers 502 although the upstream call succeeded. *)
Lemma unwrappable_status_becomes_502 rt v request url w r :
  fresh_ids w →
  req_method request ≠ "OPTIONS" →
  serves_landing v request = false →
  URL.parse (parse_authority rt) (URL.pathname (req_url request)) UPSTREAM
  = Some url →
  upstream_result rt v (fetches w) = Return r →
  599 < fetched_status r →
  fst (handler rt v request w) =
  Return (bad_gateway (status_out_of_range rt (fetched_status r))).
Proof.
  intros Hw Hm Hl Hp Hr Hs.
  rewrite (handler_forward rt v request url w Hm Hl Hp).
  destruct (upstream_call_ok rt v (target url request)
              (outbound_init v request) w Hw eq_refl) as (evs & R & _).
  destruct (upstream_call rt v (target url request) (outbound_init v request) w)
    as [c w1] eqn:E.
  rewrite (try_forward rt _ c w w1 E).
  simpl in R. rewrite Hr in R. subst c.
  unfold rewrap_error.
  replace (fetched_status r <=? 599) with false
    by (symmetry; apply Z.leb_gt; lia).
  by rewrite andb_false_r.
Qed.

(** C2, where the code leaves it.  An upstream response with two
    [Set-Cookie] headers is iterated as two entries of one key, of which
    the object built from the entries keeps the last: the relayed
    response carries [b=2] and has lost [a=1]. *)
Theorem C2_first_set_cookie_lost rt v request url w :
  fresh_ids w →
  req_method request ≠ "OPTIONS" →
  serves_landing v request = false →
  URL.parse (parse_authority rt) (URL.pathname (req_url request)) UPSTREAM
  = Some url →
  upstream_result rt v (fetches w) = Return two_cookies →
  Headers.entries (fetched_headers two_cookies) =
    [("set-cookie", "a=1"); ("set-cookie", "b=2")]
  ∧ ∃ response,
      fst (handler rt v request w) = Return response
      ∧ status response = 200
      ∧ body response = BodyStream 1
      ∧ headers response = <["set-cookie" := "b=2"]> CORS_HEADERS
      ∧ ∀ key, headers response !! key ≠ Some "a=1".
Proof.
  intros Hw Hm Hl Hp Hr. split; [reflexivity|].
  eexists. split.
  { apply (relayed_when_wrappable rt v request url w two_cookies);
      try done. }
  cbn [status body headers]. split; [done|]. split; [done|].
  assert (Object_fromEntries (Headers.entries two_cookies.(fetched_headers))
          ∪ CORS_HEADERS = <["set-cookie" := "b=2"]> CORS_HEADERS) as ->.
  { change (Headers.entries (fetched_headers two_cookies))
      with [("set-cookie", "a=1"); ("set-cookie", "b=2")].
    unfold Object_fromEntries. simpl.
    rewrite insert_insert_eq, insert_empty.
    by rewrite <- insert_union_singleton_l. }
  split; [done|]. intros key. unfold CORS_HEADERS.
  destruct (decide (key = "set-cookie")) as [->|];
    [by rewrite lookup_insert_eq|rewrite lookup_insert_ne by done].
  destruct (decide (key = "access-control-allow-headers")) as [->|];
    [by rewrite lookup_insert_eq|rewrite lookup_insert_ne by done].
  destruct (decide (key = "access-control-allow-methods")) as [->|];
    [by rewrite lookup_insert_eq|rewrite lookup_insert_ne by done].
  destruct (decide (key = "access-control-allow-origin")) as [->|];
    [by rewrite lookup_insert_eq|rewrite lookup_insert_ne by done].
  by rewrite lookup_empty.
Qed.

Lemma C2_first_set_cookie_lost_witness :
  ∃ response,
    fst (handler (sample_runtime (answers two_cookies)) VDirect
           (sample_request "GET" "/v1/models") initial_world)
    = Return response
    ∧ headers response !! "set-cookie" = Some "b=2".
Proof.
  destruct (C2_first_set_cookie_lost (sample_runtime (answers two_cookies))
              VDirect (sample_request "GET" "/v1/models")
              (URL.mk "https:" "generativelanguage.googleapis.com"
                 "/v1/models" [])
              initial_world fresh_ids_initial)
    as (_ & response & Hrun & _ & _ & Hh & _).
  - discriminate.
  - reflexivity.
  - reflexivity.
  - reflexivity.
  - exists response. split; [exact Hrun|]. rewrite Hh. reflexivity.
Defined.

(** ** How a request ends *)

Lemma list_not_own_extension {A} (l : list A) (x : A) : l ≠ l ++ [x].
Proof.
  intros H. apply (f_equal length) in H. rewrite length_app in H.
  simpl in H. lia.
Qed.

Ltac absurd_end :=
  exfalso;
  repeat match goal with
         | H : _ ∧ _ |- _ => destruct H
         end;
  first
    [ congruence
    | subst; lia
    | match goal with
      | H1 : proxy_errors ?a = ?l ++ [_], H2 : proxy_errors ?a = ?l |- _ =>
          rewrite H2 in H1; exact (list_not_own_extension _ _ H1)
      | H1 : proxy_errors (trace ?x) = _ ++ [_], H2 : ?x = _ |- _ =>
          rewrite H2 in H1; exact (list_not_own_extension _ _ H1)
      end ].

(** The evidence of [ends_as] tells the outcomes apart. *)
Lemma ends_as_unique rt request w out o o' :
  ends_as rt request w out o → ends_as rt request w out o' → o = o'.
Proof.
  intros [_ H] [_ H'].
  destruct o as [| |r|e], o' as [| |r'|e']; try done; try absurd_end.
  - f_equal. destruct H as (_ & H & _), H' as (_ & H' & _). congruence.
  - f_equal. rewrite H in H'. by apply app_inj_tail in H' as [_ ?].
Qed.

(** C8, as it is written, fails: the landing variant answers GET / with
    the landing page, which is neither the preflight answer, nor a
    forwarded response (no upstream call is made), nor the 502. *)
Lemma C8_landing_page_is_no_such_outcome :
  let rt := sample_runtime connection_refused in
  let request := sample_request "GET" "/" in
  handler rt VLanding request initial_world
  = (Return landing_response, initial_world)
  ∧ ¬ ∃ o, o ≠ LandingPage
           ∧ ends_as rt request initial_world
               (handler rt VLanding request initial_world) o.
Proof.
  intros rt request.
  assert (handler rt VLanding request initial_world
          = (Return landing_response, initial_world)) as E.
  { apply handler_landing; [discriminate|reflexivity]. }
  split; [exact E|]. rewrite E.
  intros (o & Ho & _ & H). destruct o as [| |r|e]; simpl in H.
  - by destruct H.
  - done.
  - destruct H as [H _]. lia.
  - discriminate H.
Qed.

(** C8, as the code has it.  On a path that begins with a single slash
    every variant ends a request in exactly one of four ways: the
    preflight answer (for OPTIONS, and only then), the landing page (in
    the landing variant at the path /, and only there), a forwarded
    upstream response, or the 502 answer. *)
Theorem C8_one_of_four_outcomes rt v request w :
  fresh_ids w →
  single_slash (URL.pathname (req_url request)) = true →
  ∃ o,
    ends_as rt request w (handler rt v request w) o
    ∧ (∀ o', ends_as rt request w (handler rt v request w) o' → o' = o)
    ∧ (o = Preflight ↔ req_method request = "OPTIONS")
    ∧ (o = LandingPage ↔
       req_method request ≠ "OPTIONS" ∧ serves_landing v request = true).
Proof.
  intros Hw Hpath.
  assert (∀ o, ends_as rt request w (handler rt v request w) o →
               ∀ o', ends_as rt request w (handler rt v request w) o' →
                     o' = o) as Huniq.
  { intros o Ho o' Ho'. eapply ends_as_unique; eassumption. }
  destruct (decide (req_method request = "OPTIONS")) as [Hm|Hm].
  { exists Preflight.
    assert (ends_as rt request w (handler rt v request w) Preflight) as He
      by (rewrite handler_preflight by done; by split).
    split; [exact He|]. split; [by apply Huniq|]. split; [done|].
    split; [discriminate|]. by intros [? _]. }
  destruct (serves_landing v request) eqn:Hl.
  { exists LandingPage.
    assert (ends_as rt request w (handler rt v request w) LandingPage) as He.
    { destruct v; try discriminate Hl.
      rewrite handler_landing by done. by split. }
    split; [exact He|]. split; [by apply Huniq|].
    split; [split; [discriminate|done]|done]. }
  assert (∃ o, ends_as rt request w (handler rt v request w) o
               ∧ o ≠ Preflight ∧ o ≠ LandingPage) as (o & He & Hn1 & Hn2).
  { rewrite (handler_forward rt v request _ w Hm Hl
               (parse_single_slash _ _ Hpath)).
    destruct (upstream_call_ok rt v
                (target (URL.mk "https:" "generativelanguage.googleapis.com"
                           (URL.pathname (req_url request)) []) request)
                (outbound_init v request) w Hw eq_refl)
      as (evs & _ & Hc & Hp & Hr).
    destruct (upstream_call rt v _ (outbound_init v request) w)
      as [c w1] eqn:E.
    rewrite (try_forward rt _ c w w1 E). simpl in Hc, Hr.
    destruct Hc as (Ht & _).
    assert (∀ x, proxy_errors (trace (log (EConsoleError "Proxy error:" x) w1))
                 = proxy_errors (trace w) ++ [x]) as Hlog.
    { intros x. simpl. rewrite Ht, !proxy_errors_app, Hp, app_nil_r.
      reflexivity. }
    destruct c as [r|e]; [destruct (rewrap_error rt r) as [x|]|].
    - exists (BadGateway x). split; [by split; [|apply Hlog]|done].
    - exists (Forwarded r). split; [|done].
      destruct (Hr r eq_refl) as [? ?]. split; [done|].
      split; [done|]. split; [done|].
      simpl. by rewrite Ht, proxy_errors_app, Hp, app_nil_r.
    - exists (BadGateway e). split; [by split; [|apply Hlog]|done]. }
  exists o. split; [exact He|]. split; [by apply Huniq|].
  split; [split; [done|by intros ?]|].
  split; [done|]. intros [_ ?]. congruence.
Qed.

Lemma C8_one_of_four_outcomes_witness :
  ∃ o,
    ends_as (sample_runtime (answers models_response))
      (sample_request "GET" "/v1/models") initial_world
      (handler (sample_runtime (answers models_response)) VLanding
         (sample_request "GET" "/v1/models") initial_world) o.
Proof.
  destruct (C8_one_of_four_outcomes (sample_runtime (answers models_response))
              VLanding (sample_request "GET" "/v1/models") initial_world
              fresh_ids_initial eq_refl) as (o & Ho & _).
  exists o. exact Ho.
Defined.

(** Outside the paths of C8: when the path is nothing but slashes,
    [new URL] finds no host and throws before the try block is entered,
    so the handler rejects and no response is made. *)
Lemma slashes_only_path_rejects rt v w method :
  method ≠ "OPTIONS" →
  handler rt v (sample_request method "//") w = (Throw (invalid_url rt), w).
Proof.
  intros Hm. apply handler_invalid_url; [done| |done].
  by destruct v.
Qed.

(** * Beyond the claims *)

(** ** Bounds on the retry loop *)

Section BoundFacts.

Variable rt : Runtime.

Lemma budget_nonneg retries todo :
  Forall (λ a, 0 <= a) todo → 0 <= budget retries todo.
Proof.
  induction 1 as [|a later Ha _ IH]; simpl; [lia|].
  destruct (a <? retries); lia.
Qed.

Lemma after_call_bounds (attach : RequestInit → nat → RequestInit)
  url options c w :
  (∀ o c, init_method (attach o c) = init_method o
          ∧ init_headers (attach o c) = init_headers o
          ∧ init_body (attach o c) = init_body o) →
  ∃ evs,
    trace (after_call rt 20000 url (attach options c) w) = trace w ++ evs
    ∧ Forall (carries url options) evs
    ∧ now (after_call rt 20000 url (attach options c) w) <= now w + 20000.
Proof.
  intros Hattach. eexists. split; [reflexivity|]. split.
  - destruct (20000 <=? latency (network rt (fetches w)));
      repeat constructor; apply Hattach.
  - simpl. destruct (20000 <=? latency (network rt (fetches w))) eqn:E; [lia|].
    apply Z.leb_gt in E. lia.
Qed.

Lemma Retry_attempts_bounded url options retries todo :
  Forall (λ a, 0 <= a) todo →
  ∀ lastError w, fresh_ids w →
    loop_bounded url options retries todo w
      (Retry.attempts rt url options retries todo lastError w).
Proof.
  induction 1 as [|attempt later Ha Hl IH]; intros lastError w Hw.
  - exists []. simpl. rewrite app_nil_r. split; [done|]. split; [done|].
    split; lia.
  - unfold loop_bounded. cbn [Retry.attempts budget length].
    unfold try_catch. rewrite Retry_fetchWithTimeout by done.
    change Retry.REQUEST_TIMEOUT with 20000.
    change Retry.RETRY_DELAY with 1000.
    destruct (after_call_bounds Retry.with_signal url options (next_id w) w)
      as (evs & Ht & Hc & Hn); [done|].
    pose proof (fresh_ids_after_call rt 20000 url
                  (Retry.with_signal options (next_id w)) w Hw) as Hw1.
    assert (fetches (after_call rt 20000 url
                       (Retry.with_signal options (next_id w)) w)
            = S (fetches w)) as Hf by done.
    set (w1 := after_call rt 20000 url _ w) in *.
    pose proof (budget_nonneg retries later Hl) as Hb.
    destruct (timed rt 20000 (fetches w)) as [r|e].
    + exists evs. cbn [snd]. split; [done|]. split; [done|].
      split; [lia|]. destruct (attempt <? retries); lia.
    + destruct (attempt <? retries).
      * change ((sleep (1000 * (attempt + 1)) ;;;
                 Retry.attempts rt url options retries later e)%async w1)
          with (Retry.attempts rt url options retries later e
                  (snd (sleep (1000 * (attempt + 1)) w1))).
        destruct (continues_sleep (1000 * (attempt + 1)) w1 Hw1)
          as [(Ht2 & _ & Hw2 & _) Hf2].
        assert (now (snd (sleep (1000 * (attempt + 1)) w1))
                = now w1 + 1000 * (attempt + 1)) as Hn2 by done.
        set (w2 := snd (sleep (1000 * (attempt + 1)) w1)) in *.
        destruct (IH e w2 Hw2) as (evs' & Ht' & Hc' & Hf' & Hn').
        exists (evs ++ [ESleep (1000 * (attempt + 1))] ++ evs').
        split; [by rewrite Ht', Ht2, Ht, <- !app_assoc|].
        split; [apply Forall_app; split; [done|by constructor]|].
        split; lia.
      * change ((ret tt ;;;
                 Retry.attempts rt url options retries later e)%async w1)
          with (Retry.attempts rt url options retries later e w1).
        destruct (IH e w1 Hw1) as (evs' & Ht' & Hc' & Hf' & Hn').
        exists (evs ++ evs').
        split; [by rewrite Ht', Ht, <- !app_assoc|].
        split; [by apply Forall_app|]. split; lia.
Qed.

Lemma DenyList_attempts_bounded url options retries todo :
  Forall (λ a, 0 <= a) todo →
  ∀ lastError w, fresh_ids w →
    loop_bounded url options retries todo w
      (DenyList.attempts rt url options retries todo lastError w).
Proof.
  induction 1 as [|attempt later Ha Hl IH]; intros lastError w Hw.
  - exists []. simpl. rewrite app_nil_r. split; [done|]. split; [done|].
    split; lia.
  - unfold loop_bounded. cbn [DenyList.attempts budget length].
    unfold try_catch. rewrite DenyList_fetchWithTimeout by done.
    change DenyList.REQUEST_TIMEOUT with 20000.
    change DenyList.RETRY_DELAY with 1000.
    destruct (after_call_bounds DenyList.with_signal_half url options
                (next_id w) w) as (evs & Ht & Hc & Hn); [done|].
    pose proof (fresh_ids_after_call rt 20000 url
                  (DenyList.with_signal_half options (next_id w)) w Hw)
      as Hw1.
    assert (fetches (after_call rt 20000 url
                       (DenyList.with_signal_half options (next_id w)) w)
            = S (fetches w)) as Hf by done.
    set (w1 := after_call rt 20000 url _ w) in *.
    pose proof (budget_nonneg retries later Hl) as Hb.
    destruct (timed rt 20000 (fetches w)) as [r|e].
    + exists evs. cbn [snd]. split; [done|]. split; [done|].
      split; [lia|]. destruct (attempt <? retries); lia.
    + set (note := EConsoleError (DenyList.attempt_label attempt) e).
      assert (fresh_ids (log note w1)) as Hwl by exact Hw1.
      assert (trace (log note w1) = trace w1 ++ [note]) as Htl by done.
      assert (fetches (log note w1) = fetches w1) as Hfl by done.
      assert (now (log note w1) = now w1) as Hnl by done.
      destruct (attempt <? retries).
      * change ((console_error (DenyList.attempt_label attempt) e ;;;
                 sleep (1000 * (attempt + 1)) ;;;
                 DenyList.attempts rt url options retries later e)%async w1)
          with (DenyList.attempts rt url options retries later e
                  (snd (sleep (1000 * (attempt + 1)) (log note w1)))).
        destruct (continues_sleep (1000 * (attempt + 1)) (log note w1) Hwl)
          as [(Ht2 & _ & Hw2 & _) Hf2].
        assert (now (snd (sleep (1000 * (attempt + 1)) (log note w1)))
                = now (log note w1) + 1000 * (attempt + 1)) as Hn2 by done.
        set (w2 := snd (sleep (1000 * (attempt + 1)) (log note w1))) in *.
        destruct (IH e w2 Hw2) as (evs' & Ht' & Hc' & Hf' & Hn').
        exists (evs ++ [note; ESleep (1000 * (attempt + 1))] ++ evs').
        split; [by rewrite Ht', Ht2, Htl, Ht, <- !app_assoc|].
        split; [apply Forall_app; split; [done|by repeat constructor]|].
        split; lia.
      * change ((console_error (DenyList.attempt_label attempt) e ;;;
                 ret tt ;;;
                 DenyList.attempts rt url options retries later e)%async w1)
          with (DenyList.attempts rt url options retries later e
                  (log note w1)).
        destruct (IH e (log note w1) Hwl) as (evs' & Ht' & Hc' & Hf' & Hn').
        exists (evs ++ [note] ++ evs').
        split; [by rewrite Ht', Htl, Ht, <- !app_assoc|].
        split; [apply Forall_app; split; [done|by repeat constructor]|].
        split; lia.
Qed.

End BoundFacts.

(** ** Bounds on a whole request *)

Section RunFacts.

Variable rt : Runtime.

Lemma upstream_call_bounded v url init w :
  fresh_ids w → init_signal init = None →
  ∃ evs,
    trace (snd (upstream_call rt v url init w)) = trace w ++ evs
    ∧ Forall (carries url init) evs
    ∧ (fetches (snd (upstream_call rt v url init w))
       ≤ fetches w + calls_allowed v)%nat
    ∧ (v ≠ VDirect →
       now (snd (upstream_call rt v url init w)) <= now w + 63000)
    ∧ timers (snd (upstream_call rt v url init w)) = timers w.
Proof.
  intros Hw Hs.
  destruct (upstream_call_ok rt v url init w Hw Hs)
    as (_ & _ & (_ & Htimers & _) & _).
  assert (Forall (λ a, 0 <= a) [0; 1; 2]) as H012
    by (repeat constructor; lia).
  destruct v; cbn [upstream_call calls_allowed] in *.
  - rewrite fetch_unsignalled by done. exists [EFetch url init]. simpl.
    split; [done|]. split; [by repeat constructor|]. split; [lia|done].
  - destruct (Retry_attempts_bounded rt url init Retry.MAX_RETRIES [0; 1; 2]
                H012 JSNull w Hw) as (evs & Ht & Hc & Hf & Hn).
    exists evs. split; [exact Ht|]. split; [done|]. split; [exact Hf|].
    split; [intros _; exact Hn|done].
  - destruct (Retry_attempts_bounded rt url init Retry.MAX_RETRIES [0; 1; 2]
                H012 JSNull w Hw) as (evs & Ht & Hc & Hf & Hn).
    exists evs. split; [exact Ht|]. split; [done|]. split; [exact Hf|].
    split; [intros _; exact Hn|done].
  - destruct (DenyList_attempts_bounded rt url init DenyList.MAX_RETRIES
                [0; 1; 2] H012 JSNull w Hw) as (evs & Ht & Hc & Hf & Hn).
    exists evs. split; [exact Ht|]. split; [done|]. split; [exact Hf|].
    split; [intros _; exact Hn|done].
Qed.

Lemma run_bounded_idle v request w out :
  out.2 = w → (∀ e, out.1 = Throw e →
                    e = invalid_url rt
                    ∧ URL.parse (parse_authority rt)
                        (URL.pathname (req_url request)) UPSTREAM = None) →
  run_bounded rt v request w out.
Proof.
  intros Hw Hthrow. exists []. rewrite Hw, app_nil_r.
  split; [done|]. split; [done|]. split; [lia|]. split; [lia|].
  split; [by intros ? ? []|]. intros e He.
  destruct (Hthrow e He). done.
Qed.

(** Every request, in every variant, stays within [run_bounded]. *)
Lemma handler_run_bounded v request w :
  fresh_ids w → run_bounded rt v request w (handler rt v request w).
Proof.
  intros Hw.
  destruct (decide (req_method request = "OPTIONS")) as [Hm|Hm].
  { rewrite handler_preflight by done. by apply run_bounded_idle. }
  destruct (serves_landing v request) eqn:Hl.
  { destruct v; try discriminate Hl.
    rewrite handler_landing by done. by apply run_bounded_idle. }
  destruct (URL.parse (parse_authority rt) (URL.pathname (req_url request))
              UPSTREAM) as [url|] eqn:Hp.
  2:{ rewrite handler_invalid_url by done. apply run_bounded_idle; [done|].
      by intros e [= <-]. }
  rewrite (handler_forward rt v request url w Hm Hl Hp).
  destruct (upstream_call_bounded v (target url request)
              (outbound_init v request) w Hw eq_refl)
    as (evs & Ht & Hc & Hf & Hn & Htimers).
  destruct (upstream_call rt v (target url request) (outbound_init v request) w)
    as [c w1] eqn:E.
  rewrite (try_forward rt _ c w w1 E). cbn [snd] in *.
  assert (fst (upstream_url rt request w) = Return (target url request))
    as Hurl by by rewrite upstream_url_run, Hp.
  assert (∀ evs', Forall (carries (target url request)
                            (outbound_init v request)) evs' →
                  ∀ u i, In (EFetch u i) evs' →
                         fst (upstream_url rt request w) = Return u
                         ∧ init_method i = req_method request
                         ∧ init_headers i = outbound_headers v request
                         ∧ init_body i = req_body request) as Hcarry.
  { intros evs' Hall u i Hin. rewrite Forall_forall in Hall.
    apply list_elem_of_In, Hall in Hin. destruct Hin as (-> & ? & ? & ?).
    done. }
  assert (∀ x, run_bounded rt v request w
                 (Return (bad_gateway x),
                  log (EConsoleError "Proxy error:" x) w1)) as Hbad.
  { intros x. exists (evs ++ [EConsoleError "Proxy error:" x]).
    cbn [fst snd]. split; [simpl; by rewrite Ht, app_assoc|].
    split; [done|]. split; [done|]. split; [done|].
    split; [|done]. apply Hcarry. apply Forall_app. split; [done|].
    by repeat constructor. }
  destruct c as [r|e]; [destruct (rewrap_error rt r)|]; try apply Hbad.
  exists evs. cbn [fst snd]. split; [done|]. split; [done|].
  split; [done|]. split; [done|]. split; [by apply Hcarry|done].
Qed.

End RunFacts.

(** ** The header filters on any list of keys *)

Section FilterMore.

Implicit Types (l h : Headers.t) (n k name value : string).

Lemma in_lower_names_has l n :
  In (byteLowerCase n) (lower_names l) ↔ Headers.has l n = true.
Proof.
  unfold lower_names. rewrite in_map_iff, has_elem.
  split; intros (e & ? & ?); exists e; done.
Qed.

Lemma lower_names_replace l n v added x :
  In x (lower_names (Headers.replace n v added l)) → In x (lower_names l).
Proof.
  revert added. induction l as [|e l IH]; intros added; simpl; [done|].
  destruct (Headers.same_name n e).
  - destruct added; simpl; [eauto|]. intros [?|?]; eauto.
  - simpl. intros [?|?]; eauto.
Qed.

Lemma NoDup_replace l n v added :
  NoDup (lower_names l) → NoDup (lower_names (Headers.replace n v added l)).
Proof.
  revert added. induction l as [|e l IH]; intros added; simpl; [done|].
  intros [Hnotin Hnd]%NoDup_cons. rewrite list_elem_of_In in Hnotin.
  destruct (Headers.same_name n e).
  - destruct added; [by apply IH|]. simpl. apply NoDup_cons.
    split; [|by apply IH]. rewrite list_elem_of_In.
    intros H. by apply lower_names_replace in H.
  - simpl. apply NoDup_cons. split; [|by apply IH].
    rewrite list_elem_of_In. intros H. by apply lower_names_replace in H.
Qed.

(** [set] never makes a name occur twice. *)
Lemma NoDup_set l n v :
  NoDup (lower_names l) → NoDup (lower_names (Headers.set l n v)).
Proof.
  intros Hnd. unfold Headers.set. destruct (Headers.has l n) eqn:H.
  - by apply NoDup_replace.
  - unfold lower_names. rewrite map_app. apply NoDup_app.
    split; [done|]. split; [|apply NoDup_singleton].
    intros x Hx Hx'. apply list_elem_of_In in Hx'. simpl in Hx'.
    destruct Hx' as [<-|[]].
    apply list_elem_of_In, in_lower_names_has in Hx. congruence.
Qed.

Lemma NoDup_pick_by keep h : NoDup (lower_names (pick_by keep h)).
Proof.
  unfold pick_by.
  assert (∀ ks acc,
            NoDup (lower_names acc) →
            NoDup (lower_names
                     (foldl (λ picked key,
                        if keep key then
                          match Headers.get h key with
                          | Some value => Headers.set picked key value
                          | None => picked
                          end
                        else picked) acc ks))) as H.
  { induction ks as [|a ks IH]; intros acc Hacc; simpl; [done|].
    apply IH. destruct (keep a); [|done].
    destruct (Headers.get h a); [|done]. by apply NoDup_set. }
  apply H. constructor.
Qed.

Lemma pick_by_lower_names keep h :
  lower_names (pick_by keep h) = map fst (pick_by keep h).
Proof.
  unfold lower_names. apply map_ext_in. intros e He.
  assert (In (fst e) (map fst (pick_by keep h))) as Hn by by apply in_map.
  apply names_pick_by in Hn as [Hk _]. by apply keys_spec in Hk as [? _].
Qed.

Lemma get_any_case keep h name :
  Headers.get (pick_by keep h) name =
  if keep (byteLowerCase name)
  then Headers.normalize <$> Headers.get h name
  else None.
Proof.
  rewrite <- get_lower, get_pick_by by apply byteLowerCase_idempotent.
  by rewrite get_lower.
Qed.

Lemma deny_get_any_case h blockedKeys name :
  Headers.get (DenyList.pickHeaders h blockedKeys) name =
  if DenyList.includes blockedKeys (byteLowerCase name)
  then None
  else Headers.normalize <$> Headers.get h name.
Proof.
  rewrite deny_pickHeaders_pick_by, get_any_case.
  unfold DenyList.toLowerCase. rewrite byteLowerCase_idempotent.
  by destruct (DenyList.includes _ _).
Qed.

End FilterMore.


(** X2. An allow-list of strings that are not in lower case selects
    nothing: the keys it is compared with are lower-case. *)
Theorem X2_mixed_case_allow_list_selects_nothing h keys :
  (∀ k, In k keys → ∃ s, k = KString s ∧ byteLowerCase s ≠ s) →
  pickHeaders h keys = [].
Proof.
  intros Hkeys. rewrite pickHeaders_pick_by.
  destruct (pick_by _ h) as [|e picked] eqn:E; [done|]. exfalso.
  assert (In (fst e) (map fst (pick_by
            (λ key, existsb (key_matches key) keys) h))) as Hn
    by (rewrite E; by left).
  apply names_pick_by in Hn as [Hkey Hkeep].
  apply keys_spec in Hkey as [Hlow _].
  apply existsb_exists in Hkeep as (k & Hk & Hmatch).
  destruct (Hkeys k Hk) as (s & -> & Hs). simpl in Hmatch.
  apply String.eqb_eq in Hmatch. congruence.
Qed.

Lemma X2_mixed_case_allow_list_selects_nothing_witness :
  pickHeaders [("Content-Type", "text/plain")] [KString "Content-Type"] = [].
Proof.
  apply (X2_mixed_case_allow_list_selects_nothing
           [("Content-Type", "text/plain")] [KString "Content-Type"]).
  intros k [<-|[]]. exists "Content-Type". split; [reflexivity|discriminate].
Defined.

(** X3. The deny-list filter on any list of blocked keys: a header is
    dropped when its lower-cased name is in the list, and kept otherwise
    with the value the inbound collection reports, normalized. *)
Theorem X3_deny_pickHeaders_contract h blockedKeys name :
  Headers.get (DenyList.pickHeaders h blockedKeys) name =
  if DenyList.includes blockedKeys (byteLowerCase name)
  then None
  else Headers.normalize <$> Headers.get h name.
Proof. apply deny_get_any_case. Qed.

(** X4. A deny-list entry that is not in lower case blocks nothing:
    with only such entries every inbound header passes. *)
Theorem X4_mixed_case_deny_list_blocks_nothing h blockedKeys name :
  (∀ b, In b blockedKeys → byteLowerCase b ≠ b) →
  Headers.get (DenyList.pickHeaders h blockedKeys) name =
  Headers.normalize <$> Headers.get h name.
Proof.
  intros Hb. rewrite deny_get_any_case.
  destruct (DenyList.includes _ _) eqn:E; [|done]. exfalso.
  apply existsb_exists in E as (b & Hin & Heq).
  apply String.eqb_eq in Heq. apply (Hb b Hin).
  by rewrite <- Heq, byteLowerCase_idempotent.
Qed.

Lemma X4_mixed_case_deny_list_blocks_nothing_witness :
  Headers.get (DenyList.pickHeaders [("cookie", "session=1")] ["Cookie"])
    "cookie" = Some "session=1".
Proof.
  apply (X4_mixed_case_deny_list_blocks_nothing
           [("cookie", "session=1")] ["Cookie"] "cookie").
  intros b [<-|[]]. discriminate.
Defined.

(** X5. The headers a variant sends upstream never hold a name twice,
    in whatever letter case the inbound names came: same-named inbound
    headers are merged by the filter and the synthetic headers replace
    what is there. *)
Theorem X5_outbound_names_unique v request :
  NoDup (lower_names (outbound_headers v request)).
Proof.
  assert (NoDup (lower_names (pickHeaders (req_headers request)
                                ALLOWED_HEADERS))) as Hallow
    by (rewrite pickHeaders_pick_by; apply NoDup_pick_by).
  destruct v; simpl; try exact Hallow.
  unfold DenyList.addProxyHeaders. repeat apply NoDup_set.
  rewrite deny_pickHeaders_pick_by. apply NoDup_pick_by.
Qed.

(** X6. What the deny-list variant sends upstream under a name, in any
    letter case: the synthetic value when the name is one of the six
    synthetic headers, whatever the caller sent; nothing when the name
    is on the deny-list; the caller's value, normalized, otherwise. *)
Theorem X6_deny_list_outbound_headers request name :
  Headers.get (outbound_headers VDenyList request) name =
  match List.find (fun s => String.eqb (byteLowerCase name) (fst s))
          SYNTHETIC_HEADERS with
  | Some s => Some (snd s)
  | None =>
      if DenyList.includes DenyList.BLOCKED_HEADERS (byteLowerCase name)
      then None
      else Headers.normalize <$> Headers.get (req_headers request) name
  end.
Proof.
  rewrite <- deny_get_any_case.
  unfold outbound_headers, DenyList.addProxyHeaders, Headers.get.
  rewrite !values_set.
  change (byteLowerCase "user-agent") with "user-agent".
  change (byteLowerCase "accept") with "accept".
  change (byteLowerCase "accept-language") with "accept-language".
  change (byteLowerCase "accept-encoding") with "accept-encoding".
  change (byteLowerCase "cache-control") with "cache-control".
  change (byteLowerCase "pragma") with "pragma".
  unfold SYNTHETIC_HEADERS, List.find, fst, snd.
  repeat match goal with
         | |- context [String.eqb (byteLowerCase name) ?c] =>
             destruct (String.eqb (byteLowerCase name) c) eqn:?
         end;
    try reflexivity.
  all: repeat match goal with
         | H : String.eqb _ _ = true |- _ => apply String.eqb_eq in H
         end; simpl in *; congruence.
Qed.

(** X7. Whatever the network does, a request makes at most one upstream
    call in the variant without retry and at most three in the others. *)
Theorem X7_upstream_calls_bounded rt v request w :
  fresh_ids w →
  (fetches (snd (handler rt v request w))
   ≤ fetches w + match v with VDirect => 1 | _ => 3 end)%nat.
Proof.
  intros Hw.
  destruct (handler_run_bounded rt v request w Hw) as (evs & _ & _ & Hf & _).
  by destruct v.
Qed.

Lemma X7_upstream_calls_bounded_witness :
  (fetches (snd (handler (sample_runtime connection_refused) VDenyList
                   (sample_request "POST" "/v1/models") initial_world))
   ≤ 3)%nat.
Proof.
  apply (X7_upstream_calls_bounded (sample_runtime connection_refused)
           VDenyList (sample_request "POST" "/v1/models") initial_world
           fresh_ids_initial).
Defined.

(** X8. In the variants with timeout and retry a request is answered
    within 63 seconds of the world's clock, whatever the latencies of
    the network: three timeouts of 20 seconds and waits of 1 and 2
    seconds. *)
Theorem X8_answer_within_63_seconds rt v request w :
  fresh_ids w →
  v ≠ VDirect →
  now (snd (handler rt v request w)) <= now w + 63000.
Proof.
  intros Hw Hv.
  destruct (handler_run_bounded rt v request w Hw) as (evs & _ & _ & _ & Hn & _).
  by apply Hn.
Qed.

Lemma X8_answer_within_63_seconds_witness :
  now (snd (handler
              (sample_runtime
                 (fun _ => {| latency := 3600000;
                              settled := Resolved models_response |}))
              VRetry (sample_request "GET" "/v1/models") initial_world))
  <= 63000.
Proof.
  apply (X8_answer_within_63_seconds
           (sample_runtime
              (fun _ => {| latency := 3600000;
                           settled := Resolved models_response |}))
           VRetry (sample_request "GET" "/v1/models") initial_world
           fresh_ids_initial).
  discriminate.
Defined.

(** X9. No request leaves a timer behind: in every variant, however the
    request ends, the timers that are live afterwards are those that
    were live before. *)
Theorem X9_no_timer_outlives_request rt v request w :
  fresh_ids w →
  timers (snd (handler rt v request w)) = timers w.
Proof.
  intros Hw.
  by destruct (handler_run_bounded rt v request w Hw) as (evs & _ & Ht & _).
Qed.

Lemma X9_no_timer_outlives_request_witness :
  timers (snd (handler (sample_runtime connection_refused) VLanding
                 (sample_request "GET" "/v1/models") initial_world)) = [].
Proof.
  apply (X9_no_timer_outlives_request (sample_runtime connection_refused)
           VLanding (sample_request "GET" "/v1/models") initial_world
           fresh_ids_initial).
Defined.

(** X10. Every upstream call of a request, the first attempt and each
    retry, goes to the one target built from the request and carries the
    inbound method, the inbound body and the same filtered headers. *)
Theorem X10_every_attempt_carries_the_request rt v request w u i :
  fresh_ids w →
  In (EFetch u i) (drop (length (trace w))
                     (trace (snd (handler rt v request w)))) →
  fst (upstream_url rt request w) = Return u
  ∧ init_method i = req_method request
  ∧ init_headers i = outbound_headers v request
  ∧ init_body i = req_body request.
Proof.
  intros Hw Hin.
  destruct (handler_run_bounded rt v request w Hw)
    as (evs & Ht & _ & _ & _ & Hc & _).
  rewrite Ht, drop_app_length in Hin. by apply Hc.
Qed.

Lemma X10_every_attempt_carries_the_request_witness :
  init_headers
    (Retry.with_signal
       (outbound_init VRetry (sample_request "POST" "/v1/models")) 0)
  = outbound_headers VRetry (sample_request "POST" "/v1/models").
Proof.
  destruct (X10_every_attempt_carries_the_request
              (sample_runtime connection_refused) VRetry
              (sample_request "POST" "/v1/models") initial_world
              (URL.mk "https:" "generativelanguage.googleapis.com"
                 "/v1/models" [("key", "abc")])
              (Retry.with_signal
                 (outbound_init VRetry (sample_request "POST" "/v1/models"))
                 0)
              fresh_ids_initial) as (_ & _ & H & _).
  - vm_compute. right. left. reflexivity.
  - exact H.
Defined.



(** X12. An upstream response whose status lies above 599 is not
    relayed: wrapping it throws inside the try block, and the answer is
    the 502 with the message of that error. *)
Theorem X12_status_above_599_answers_502 rt v request url w r :
  fresh_ids w →
  req_method request ≠ "OPTIONS" →
  serves_landing v request = false →
  URL.parse (parse_authority rt) (URL.pathname (req_url request)) UPSTREAM
  = Some url →
  upstream_result rt v (fetches w) = Return r →
  599 < fetched_status r →
  ∃ response,
    fst (handler rt v request w) = Return response
    ∧ status response = 502
    ∧ body response =
        BodyText
          (JSON.stringify
             [("error", "Proxy request failed");
              ("message",
               error_message (status_out_of_range rt (fetched_status r)))]).
Proof.
  intros Hw Hm Hl Hp Hr Hs.
  rewrite (handler_forward rt v request url w Hm Hl Hp).
  destruct (upstream_call_ok rt v (target url request)
              (outbound_init v request) w Hw eq_refl) as (evs & R & _).
  destruct (upstream_call rt v (target url request) (outbound_init v request) w)
    as [c w1] eqn:E.
  rewrite (try_forward rt _ c w w1 E).
  simpl in R. rewrite Hr in R. subst c.
  unfold rewrap_error.
  replace ((200 <=? fetched_status r) && (fetched_status r <=? 599))
    with false.
  2:{ symmetry. apply andb_false_iff. right. apply Z.leb_gt. lia. }
  simpl. eexists. split; [reflexivity|]. by split.
Qed.

Lemma X12_status_above_599_answers_502_witness :
  ∃ response,
    fst (handler
           (sample_runtime
              (answers {| fetched_status := 999;
                          fetched_headers := [];
                          fetched_body := BodyStream 1 |}))
           VDirect (sample_request "GET" "/v1/models") initial_world)
    = Return response
    ∧ status response = 502.
Proof.
  destruct (X12_status_above_599_answers_502
              (sample_runtime
                 (answers {| fetched_status := 999;
                             fetched_headers := [];
                             fetched_body := BodyStream 1 |}))
              VDirect (sample_request "GET" "/v1/models")
              (URL.mk "https:" "generativelanguage.googleapis.com"
                 "/v1/models" [])
              initial_world
              {| fetched_status := 999; fetched_headers := [];
                 fetched_body := BodyStream 1 |}
              fresh_ids_initial)
    as (response & Hrun & Hs & _).
  - discriminate.
  - reflexivity.
  - reflexivity.
  - reflexivity.
  - simpl. lia.
  - exists response. by split.
Defined.



(** ** Repeated upstream headers *)

Lemma entry_values_cons k k' v' entries :
  entry_values k ((k', v') :: entries) =
  if String.eqb k' k then v' :: entry_values k entries
  else entry_values k entries.
Proof. unfold entry_values. simpl. by destruct (String.eqb k' k). Qed.

Lemma entry_values_app k a b :
  entry_values k (a ++ b) = entry_values k a ++ entry_values k b.
Proof. unfold entry_values. by rewrite List.filter_app, map_app. Qed.

(** The object built from a list of entries holds under a key the value
    of the last entry of that key. *)
Lemma fromEntries_last entries k :
  Object_fromEntries entries !! k = last (entry_values k entries).
Proof.
  unfold Object_fromEntries.
  assert (∀ (acc : gmap string string),
            foldl (λ o e, <[fst e := snd e]> o) acc entries !! k =
            match last (entry_values k entries) with
            | Some v => Some v
            | None => acc !! k
            end) as H.
  { induction entries as [|[k' v'] entries IH]; intros acc; [done|].
    simpl. rewrite IH, entry_values_cons.
    destruct (String.eqb_spec k' k) as [->|Hne].
    - rewrite last_cons, lookup_insert_eq.
      by destruct (last (entry_values k entries)).
    - by rewrite lookup_insert_ne. }
  rewrite H, lookup_empty. by destruct (last _).
Qed.

Lemma entry_values_pairs k vs : entry_values k (map (pair k) vs) = vs.
Proof.
  induction vs as [|v vs IH]; [done|].
  simpl. by rewrite entry_values_cons, String.eqb_refl, IH.
Qed.

(** Iterating a collection yields its [set-cookie] values one by one, in
    order; the last of them is the last value of the collection. *)
Lemma last_set_cookie_entry l :
  last (entry_values "set-cookie" (Headers.entries l)) =
  last (Headers.values l "set-cookie").
Proof.
  unfold Headers.entries.
  set (f := λ name : string, if String.eqb name "set-cookie" then _ else _).
  assert (∀ names,
            last (entry_values "set-cookie" (flat_map f names)) =
            if existsb (String.eqb "set-cookie") names
            then last (Headers.values l "set-cookie") else None) as H.
  { induction names as [|n names IH]; [done|].
    cbn [flat_map existsb]. rewrite entry_values_app, last_app, IH.
    unfold f at 1. rewrite (String.eqb_sym "set-cookie" n).
    destruct (String.eqb_spec n "set-cookie") as [->|Hne]; cbn [orb].
    - rewrite entry_values_pairs.
      destruct (existsb _ names); [|done].
      by destruct (last (Headers.values l "set-cookie")).
    - assert (entry_values "set-cookie"
                match Headers.get l n with
                | Some v => [(n, v)]
                | None => []
                end = []) as ->.
      { destruct (Headers.get l n); [|done].
        rewrite entry_values_cons.
        by destruct (String.eqb_spec n "set-cookie"). }
      destruct (existsb _ names); [|done].
      by destruct (last (Headers.values l "set-cookie")). }
  rewrite H.
  destruct (existsb _ (Headers.sorted_lowercase_names l)) eqn:E; [done|].
  destruct (Headers.values l "set-cookie") as [|v vs] eqn:V; [done|].
  exfalso.
  assert (Headers.has l "set-cookie" = true) as Hhas.
  { destruct (Headers.has l "set-cookie") eqn:Hh; [done|].
    apply has_values in Hh. congruence. }
  assert (In "set-cookie" (Headers.keys l)) as Hin by by apply keys_spec.
  apply in_keys in Hin.
  assert (existsb (String.eqb "set-cookie") (Headers.sorted_lowercase_names l)
          = true); [|congruence].
  apply existsb_exists. exists "set-cookie". by split.
Qed.

(** X14. Of the [Set-Cookie] headers of an upstream response the relayed
    response holds the last one only, and none when the upstream sent
    none. *)
Theorem X14_last_set_cookie_is_relayed rt v request url w r :
  fresh_ids w →
  req_method request ≠ "OPTIONS" →
  serves_landing v request = false →
  URL.parse (parse_authority rt) (URL.pathname (req_url request)) UPSTREAM
  = Some url →
  upstream_result rt v (fetches w) = Return r →
  200 <= fetched_status r <= 599 →
  (null_body_status (fetched_status r) = true → fetched_body r = BodyNull) →
  ∃ response,
    fst (handler rt v request w) = Return response
    ∧ headers response !! "set-cookie" =
      last (Headers.values (fetched_headers r) "set-cookie").
Proof.
  intros Hw Hm Hl Hp Hr Hs Hb. exists (relayed r).
  split; [by apply (relayed_when_wrappable rt v request url w r)|].
  unfold relayed. cbn [headers].
  rewrite lookup_union, fromEntries_last, last_set_cookie_entry.
  assert (CORS_HEADERS !! "set-cookie" = None) as -> by done.
  by destruct (last _).
Qed.

Lemma X14_last_set_cookie_is_relayed_witness :
  ∃ response,
    fst (handler (sample_runtime (answers two_cookies)) VRetry
           (sample_request "GET" "/v1/models") initial_world)
    = Return response
    ∧ headers response !! "set-cookie" = Some "b=2".
Proof.
  destruct (X14_last_set_cookie_is_relayed
              (sample_runtime (answers two_cookies)) VRetry
              (sample_request "GET" "/v1/models")
              (URL.mk "https:" "generativelanguage.googleapis.com"
                 "/v1/models" [])
              initial_world two_cookies fresh_ids_initial)
    as (response & Hrun & Hh).
  - discriminate.
  - reflexivity.
  - reflexivity.
  - reflexivity.
  - simpl. lia.
  - discriminate.
  - exists response. split; [exact Hrun|]. rewrite Hh. reflexivity.
Defined.

(** ** The call wrappers on their own *)



(** X16. The retry wrapper of both retrying variants with any number of
    retries: it never makes more than [retries + 1] upstream calls, and
    with a negative number it makes none and throws [null], the initial
    value of [lastError]. *)
Theorem X16_retry_count_parameter rt url options retries w :
  fresh_ids w →
  ∀ out,
    out = Retry.fetchWithRetry rt url options retries w
    ∨ out = DenyList.fetchWithRetry rt url options retries w →
    (fetches (snd out) ≤ fetches w + Z.to_nat (retries + 1))%nat
    ∧ (retries < 0 → out = (Throw JSNull, w)).
Proof.
  intros Hw out Hout. split.
  - assert (Forall (λ a, 0 <= a) (seqZ 0 (retries + 1))) as Hpos
      by (apply Forall_seqZ; lia).
    assert (loop_bounded url options retries (seqZ 0 (retries + 1)) w out)
      as (evs & _ & _ & Hf & _).
    { destruct Hout as [-> | ->].
      - by apply Retry_attempts_bounded.
      - by apply DenyList_attempts_bounded. }
    by rewrite length_seqZ in Hf.
  - intros Hneg.
    destruct Hout as [-> | ->];
      unfold Retry.fetchWithRetry, DenyList.fetchWithRetry;
      by rewrite seqZ_nil by lia.
Qed.

Lemma X16_retry_count_parameter_witness :
  DenyList.fetchWithRetry (sample_runtime connection_refused) UPSTREAM
    (outbound_init VDenyList (sample_request "GET" "/v1/models")) (-1)
    initial_world
  = (Throw JSNull, initial_world).
Proof.
  apply (X16_retry_count_parameter (sample_runtime connection_refused)
           UPSTREAM
           (outbound_init VDenyList (sample_request "GET" "/v1/models")) (-1)
           initial_world fresh_ids_initial _ (or_intror eq_refl)).
  lia.
Defined.

(** X17. The variant without timeout makes exactly one upstream call for
    a forwarded request and waits for it as long as the network takes:
    the clock moves on by the latency of that call, with no bound. *)
Theorem X17_direct_waits_for_upstream rt request url w :
  req_method request ≠ "OPTIONS" →
  URL.parse (parse_authority rt) (URL.pathname (req_url request)) UPSTREAM
  = Some url →
  now (snd (Direct.default rt request w))
  = now w + latency (network rt (fetches w))
  ∧ fetches (snd (Direct.default rt request w)) = S (fetches w)
  ∧ steps (drop (length (trace w)) (trace (snd (Direct.default rt request w))))
    = [Attempt].
Proof.
  intros Hm Hp.
  change (Direct.default rt request w) with (handler rt VDirect request w).
  rewrite (handler_forward rt VDirect request url w Hm eq_refl Hp).
  erewrite try_forward by (simpl; by apply fetch_unsignalled).
  destruct (settle _) as [r|e]; [destruct (rewrap_error rt r)|];
    cbn [snd log now fetches trace];
    (split; [done|]); (split; [done|]);
    rewrite <- ?app_assoc, drop_app_length; reflexivity.
Qed.

Lemma X17_direct_waits_for_upstream_witness :
  now (snd (Direct.default
              (sample_runtime
                 (fun _ => {| latency := 3600000;
                              settled := Resolved models_response |}))
              (sample_request "GET" "/v1/models") initial_world))
  = 3600000.
Proof.
  apply (X17_direct_waits_for_upstream
           (sample_runtime
              (fun _ => {| latency := 3600000;
                           settled := Resolved models_response |}))
           (sample_request "GET" "/v1/models")
           (URL.mk "https:" "generativelanguage.googleapis.com"
              "/v1/models" [])
           initial_world).
  - discriminate.
  - reflexivity.
Defined.

(** ** The target *)

Lemma parse_without_parameters pa input base url :
  URL.parse pa input base = Some url →
  URL.searchParams url = [] ∧ URL.protocol url = URL.protocol base.
Proof.
  unfold URL.parse. intros H.
  destruct input as [|c [|c' rest]]; repeat case_match; by simplify_eq.
Qed.

(** X18. Whatever the path, the target a handler builds has as its
    parameters the inbound parameters in their order, every pair named
    [_path] left out and every other pair kept, repeated names
    included; building it changes nothing in the world. *)
Theorem X18_target_parameters rt request w url w' :
  upstream_url rt request w = (Return url, w') →
  w' = w
  ∧ URL.protocol url = "https:"
  ∧ URL.searchParams url =
    List.filter (fun p => negb (String.eqb (fst p) "_path"))
      (URL.searchParams (req_url request))
  ∧ (∀ value, ¬ In ("_path", value) (URL.searchParams url))
  ∧ (∀ key value,
        key ≠ "_path" →
        In (key, value) (URL.searchParams (req_url request)) →
        In (key, value) (URL.searchParams url)).
Proof.
  rewrite upstream_url_run.
  destruct (URL.parse _ _ _) as [u|] eqn:P; [|done].
  intros [= <- <-]. apply parse_without_parameters in P as [Hq Hproto].
  rewrite copy_params_spec. cbn [URL.searchParams URL.protocol].
  rewrite Hq, Hproto. cbn [app]. unfold URL.searchParams_delete.
  split; [done|]. split; [done|]. split; [done|]. split.
  - intros value [_ H]%filter_In. by rewrite String.eqb_refl in H.
  - intros key value Hk Hin. apply filter_In. split; [done|].
    apply negb_true_iff, String.eqb_neq. exact Hk.
Qed.

Lemma X18_target_parameters_witness :
  URL.searchParams
    (URL.mk "https:" "generativelanguage.googleapis.com" "/v1/models"
       [("key", "abc")])
  = List.filter (fun p => negb (String.eqb (fst p) "_path"))
      [("_path", "ignored"); ("key", "abc")].
Proof.
  apply (X18_target_parameters (sample_runtime connection_refused)
           (sample_request "GET" "/v1/models") initial_world
           (URL.mk "https:" "generativelanguage.googleapis.com" "/v1/models"
              [("key", "abc")])
           initial_world).
  reflexivity.
Defined.

(** X19. On a path that begins with a single slash the target is on the
    upstream host, under the inbound path as it is, for every variant
    and whatever the host parser of the runtime accepts. *)
Theorem X19_single_slash_target_on_upstream rt request w :
  single_slash (URL.pathname (req_url request)) = true →
  ∃ url,
    upstream_url rt request w = (Return url, w)
    ∧ URL.host url = "generativelanguage.googleapis.com"
    ∧ URL.pathname url = URL.pathname (req_url request)
    ∧ URL.href url =
      "https://generativelanguage.googleapis.com"
      +:+ URL.pathname (req_url request)
      +:+ match URL.searchParams url with
          | [] => ""
          | params => "?" +:+ URL.serialize_params params
          end.
Proof.
  intros Hpath. eexists. split.
  - rewrite upstream_url_run, (parse_single_slash _ _ Hpath),
      copy_params_spec. reflexivity.
  - by split.
Qed.

Lemma X19_single_slash_target_on_upstream_witness :
  ∃ url,
    upstream_url (sample_runtime connection_refused)
      (sample_request "GET" "/v1/models") initial_world
    = (Return url, initial_world)
    ∧ URL.href url
      = "https://generativelanguage.googleapis.com/v1/models?key=abc".
Proof.
  destruct (X19_single_slash_target_on_upstream
              (sample_runtime connection_refused)
              (sample_request "GET" "/v1/models") initial_world eq_refl)
    as (url & Hrun & _ & _ & Hhref).
  exists url. split; [exact Hrun|].
  injection Hrun as <-. reflexivity.
Defined.

(** ** Filtering what was filtered *)






(** ** What is logged *)

Section LogFacts.

Variable rt : Runtime.

Lemma console_app a b : console (a ++ b) = console a ++ console b.
Proof. apply flat_map_app. Qed.

Lemma after_call_console timeout url init w :
  ∃ evs,
    trace (after_call rt timeout url init w) = trace w ++ evs
    ∧ console evs = [].
Proof.
  eexists. split; [reflexivity|].
  by destruct (timeout <=? latency (network rt (fetches w))).
Qed.

Lemma Retry_attempts_console url options retries todo :
  ∀ lastError w, fresh_ids w →
    ∃ evs,
      trace (snd (Retry.attempts rt url options retries todo lastError w))
      = trace w ++ evs
      ∧ console evs = [].
Proof.
  induction todo as [|attempt later IH]; intros lastError w Hw.
  - exists []. simpl. by rewrite app_nil_r.
  - cbn [Retry.attempts]. unfold try_catch.
    rewrite Retry_fetchWithTimeout by done.
    destruct (after_call_console Retry.REQUEST_TIMEOUT url
                (Retry.with_signal options (next_id w)) w)
      as (evs & Ht & Hc).
    pose proof (fresh_ids_after_call rt Retry.REQUEST_TIMEOUT url
                  (Retry.with_signal options (next_id w)) w Hw) as Hw1.
    set (w1 := after_call rt Retry.REQUEST_TIMEOUT url _ w) in *.
    destruct (timed rt Retry.REQUEST_TIMEOUT (fetches w)) as [r|e].
    + by exists evs.
    + destruct (backoff attempt retries
                  (Retry.RETRY_DELAY * (attempt + 1)) w1 Hw1)
        as (w2 & evs2 & E2 & (Ht2 & _ & Hw2 & _) & _ & Hs2 & _).
      assert (((if attempt <? retries
                then sleep (Retry.RETRY_DELAY * (attempt + 1)) else ret tt) ;;;
               Retry.attempts rt url options retries later e)%async w1
              = Retry.attempts rt url options retries later e w2) as ->
        by (unfold bind; by rewrite E2).
      assert (console evs2 = []) as Hc2.
      { destruct (attempt <? retries).
        - injection E2 as <-. simpl in Ht2.
          apply app_inv_head in Ht2 as <-. done.
        - injection E2 as <-. rewrite <- (app_nil_r (trace w1)) in Ht2 at 1.
          by apply app_inv_head in Ht2 as <-. }
      destruct (IH e w2 Hw2) as (evs' & Ht' & Hc').
      exists (evs ++ evs2 ++ evs').
      split; [by rewrite Ht', Ht2, Ht, <- !app_assoc|].
      by rewrite !console_app, Hc, Hc2, Hc'.
Qed.

Lemma DenyList_attempts_console url options retries todo :
  ∀ lastError w, fresh_ids w →
    ∃ evs,
      trace (snd (DenyList.attempts rt url options retries todo lastError w))
      = trace w ++ evs
      ∧ console evs = attempt_logs rt (fetches w) todo.
Proof.
  induction todo as [|attempt later IH]; intros lastError w Hw.
  - exists []. simpl. by rewrite app_nil_r.
  - cbn [DenyList.attempts attempt_logs]. unfold try_catch.
    rewrite DenyList_fetchWithTimeout by done.
    change DenyList.REQUEST_TIMEOUT with 20000.
    destruct (after_call_console 20000 url
                (DenyList.with_signal_half options (next_id w)) w)
      as (evs & Ht & Hc).
    pose proof (fresh_ids_after_call rt 20000 url
                  (DenyList.with_signal_half options (next_id w)) w Hw)
      as Hw1.
    assert (fetches (after_call rt 20000 url
                       (DenyList.with_signal_half options (next_id w)) w)
            = S (fetches w)) as Hf by done.
    set (w1 := after_call rt 20000 url _ w) in *.
    destruct (timed rt 20000 (fetches w)) as [r|e].
    + by exists evs.
    + set (note := EConsoleError (DenyList.attempt_label attempt) e).
      assert (fresh_ids (log note w1)) as Hwl by exact Hw1.
      destruct (backoff attempt retries
                  (DenyList.RETRY_DELAY * (attempt + 1)) (log note w1) Hwl)
        as (w2 & evs2 & E2 & (Ht2 & _ & Hw2 & _) & Hf2 & _).
      assert ((console_error (DenyList.attempt_label attempt) e ;;;
               (if attempt <? retries
                then sleep (DenyList.RETRY_DELAY * (attempt + 1))
                else ret tt) ;;;
               DenyList.attempts rt url options retries later e)%async w1
              = DenyList.attempts rt url options retries later e w2) as ->
        by (unfold bind, console_error; fold note; by rewrite E2).
      assert (console evs2 = []) as Hc2.
      { destruct (attempt <? retries).
        - injection E2 as <-. simpl in Ht2.
          apply app_inv_head in Ht2 as <-. done.
        - injection E2 as <-.
          rewrite <- (app_nil_r (trace (log note w1))) in Ht2 at 1.
          by apply app_inv_head in Ht2 as <-. }
      destruct (IH e w2 Hw2) as (evs' & Ht' & Hc').
      exists (evs ++ [note] ++ evs2 ++ evs').
      split.
      { rewrite Ht', Ht2.
        change (trace (log note w1)) with (trace w1 ++ [note]).
        by rewrite Ht, <- !app_assoc. }
      rewrite !console_app, Hc, Hc2, Hc'.
      change (fetches (log note w1)) with (fetches w1) in Hf2.
      by rewrite Hf2, Hf.
Qed.

End LogFacts.

(** X21. What a request that fails three times writes to the error
    console: the deny-list variant one line for each failed attempt,
    numbered from 1, with the error of that attempt, and then the proxy
    error with the last error; the other retrying variants the proxy
    error only. *)
Theorem X21_failed_attempts_on_the_console rt v request url w e0 e1 e2 :
  fresh_ids w →
  v ≠ VDirect →
  req_method request ≠ "OPTIONS" →
  serves_landing v request = false →
  URL.parse (parse_authority rt) (URL.pathname (req_url request)) UPSTREAM
  = Some url →
  timed rt 20000 (fetches w) = Throw e0 →
  timed rt 20000 (S (fetches w)) = Throw e1 →
  timed rt 20000 (S (S (fetches w))) = Throw e2 →
  console (drop (length (trace w)) (trace (snd (handler rt v request w)))) =
  match v with
  | VDenyList =>
      [("Attempt 1 failed:", e0); ("Attempt 2 failed:", e1);
       ("Attempt 3 failed:", e2)]
  | _ => []
  end ++ [("Proxy error:", e2)].
Proof.
  intros Hw Hv Hm Hl Hp H0 H1 H2.
  rewrite (handler_forward rt v request url w Hm Hl Hp).
  destruct (upstream_call_ok rt v (target url request)
              (outbound_init v request) w Hw eq_refl) as (_ & R & _).
  assert (∃ evs,
            trace (snd (upstream_call rt v (target url request)
                          (outbound_init v request) w)) = trace w ++ evs
            ∧ console evs =
              match v with
              | VDenyList =>
                  [("Attempt 1 failed:", e0); ("Attempt 2 failed:", e1);
                   ("Attempt 3 failed:", e2)]
              | _ => []
              end) as (evs & Ht & Hc).
  { destruct v; [done| | |].
    - apply (Retry_attempts_console rt _ _ Retry.MAX_RETRIES [0; 1; 2]
               JSNull w Hw).
    - apply (Retry_attempts_console rt _ _ Retry.MAX_RETRIES [0; 1; 2]
               JSNull w Hw).
    - destruct (DenyList_attempts_console rt (target url request)
                  (outbound_init VDenyList request) DenyList.MAX_RETRIES
                  [0; 1; 2] JSNull w Hw) as (evs & Ht & Hc).
      exists evs. split; [exact Ht|]. rewrite Hc.
      cbn [attempt_logs]. by rewrite H0, H1, H2. }
  assert (upstream_result rt v (fetches w) = Throw e2) as Hres.
  { destruct v; [done| | |]; simpl; by rewrite H0, H1, H2. }
  rewrite Hres in R.
  destruct (upstream_call rt v (target url request) (outbound_init v request) w)
    as [c w1] eqn:E.
  rewrite (try_forward rt _ c w w1 E). cbn [fst snd] in *. subst c.
  cbn [snd log trace]. rewrite Ht, <- app_assoc, drop_app_length.
  by rewrite console_app, Hc.
Qed.

Lemma X21_failed_attempts_on_the_console_witness :
  console (trace (snd (handler (sample_runtime connection_refused) VDenyList
                         (sample_request "GET" "/v1/models") initial_world)))
  = [("Attempt 1 failed:", JSError "TypeError" "connection refused");
     ("Attempt 2 failed:", JSError "TypeError" "connection refused");
     ("Attempt 3 failed:", JSError "TypeError" "connection refused");
     ("Proxy error:", JSError "TypeError" "connection refused")].
Proof.
  apply (X21_failed_attempts_on_the_console
           (sample_runtime connection_refused) VDenyList
           (sample_request "GET" "/v1/models")
           (URL.mk "https:" "generativelanguage.googleapis.com"
              "/v1/models" [])
           initial_world
           (JSError "TypeError" "connection refused")
           (JSError "TypeError" "connection refused")
           (JSError "TypeError" "connection refused")
           fresh_ids_initial); try reflexivity; discriminate.
Defined.

